(** * Narration video editor: segment store, gallery, auto-fill and timeline

    A shallow embedding of the logic of [App.tsx], [Timeline.tsx],
    [geminiService.ts] and [types.ts].

    - A JavaScript [number] is an IEEE 754 binary64 value: Rocq's primitive
      [float], whose operations are the processor's and are specified by
      [FloatAxioms] against [SpecFloat].
    - A JavaScript [string] is a [string]; an optional field is an [option].
    - React state is passed explicitly: a handler is a function from the state
      it was rendered with (and the values the browser hands it) to the next
      state.  A handler that runs across an [await] is cut at its awaits. *)

From Stdlib Require Import ZArith Lia Bool Ascii.
From Stdlib Require Import Floats.
From stdpp Require Import base option list strings pretty.

Local Open Scope float_scope.

(** ** Numbers *)

Module Js.

(** [a >= b] on numbers: false as soon as one side is NaN. *)
Definition ge (a b : float) : bool := b <=? a.

(** [a < b] on numbers. *)
Definition lt (a b : float) : bool := a <? b.

(** [a === b] on numbers: IEEE equality ([+0 === -0], [NaN !== NaN]). *)
Definition strict_eq (a b : float) : bool := a =? b.

(** [Math.min(a, b)]: NaN when either is NaN, and [-0] counts as smaller
    than [+0]. *)
Definition Math_min (a b : float) : float :=
  if is_nan a || is_nan b then nan
  else if a <? b then a
  else if b <? a then b
  else if get_sign a then a else b.

(** [Math.max(a, b)]: NaN when either is NaN, and [+0] counts as larger
    than [-0]. *)
Definition Math_max (a b : float) : float :=
  if is_nan a || is_nan b then nan
  else if a <? b then b
  else if b <? a then a
  else if get_sign a then b else a.

(** A thrown value, as far as the handlers read it: [err.message]. *)
Record Error := mkError { err_message : string }.

(** The completion of a call that may throw, or of an awaited promise that
    may reject. *)
Inductive result (A : Type) : Type :=
| Return (a : A)
| Throw (e : Error).

Definition bind {A B : Type} (r : result A) (k : A -> result B) : result B :=
  match r with
  | Return _ a => k a
  | Throw _ e => Throw B e
  end.

(** A loop over an array with the index ([forEach], [map]) whose body may
    throw: the first throw ends it. *)
Fixpoint mapi_from {A B : Type} (f : nat -> A -> result B) (i : nat)
  (l : list A) : result (list B) :=
  match l with
  | [] => Return _ []
  | x :: rest =>
      bind (f i x) (fun y =>
      bind (mapi_from f (S i) rest) (fun ys => Return _ (y :: ys)))
  end.

(** Reading [.id] of [arr[i]]: a [TypeError] when the index is out of range,
    since [arr[i]] is then [undefined].  The message is the engine's own
    wording and differs between engines; this is V8's. *)
Definition undefined_read : Error :=
  mkError "Cannot read properties of undefined (reading 'id')".

Definition index {A : Type} (arr : list A) (i : nat) : result A :=
  match arr !! i with
  | Some x => Return _ x
  | None => Throw _ undefined_read
  end.

(** [!v] for an optional string: [undefined] and the empty string are
    falsy. *)
Definition falsy (v : option string) : bool :=
  match v with
  | None => true
  | Some s => String.eqb s ""
  end.

(** [a || b] for a string [a]. *)
Definition or_else (a b : string) : string :=
  if String.eqb a "" then b else a.

End Js.

Arguments Js.Return {A} a.
Arguments Js.Throw {A} e.

(** ** types.ts *)

Record Segment := mkSegment {
  id : string;
  startTime : float;
  endTime : float;
  text : string;
  visualPrompt : string;
  emotion : string;
  assignedImageId : option string
}.

(** [{ ...seg, assignedImageId: v }]. *)
Definition with_assignedImageId (v : option string) (seg : Segment) : Segment :=
  mkSegment (id seg) (startTime seg) (endTime seg) (text seg)
    (visualPrompt seg) (emotion seg) v.

(** A [File] as far as the code reads it: its name and MIME type; the bytes
    are only handed on to the browser and to the analysis service. *)
Record File := mkFile {
  file_name : string;
  file_type : string
}.

Record UploadedImage := mkUploadedImage {
  img_id : string;
  img_file : File;
  img_url : string;
  img_name : string
}.

Inductive Status := idle | analyzing | matching | ready | error.

Record ProcessingState := mkProcessingState {
  status : Status;
  message : string
}.

Record VideoProject := mkVideoProject {
  audioFile : option File;
  audioUrl : option string;
  duration : float;
  segments : list Segment
}.

(** [{ ...p, segments: segs }]. *)
Definition with_segments (segs : list Segment) (p : VideoProject) : VideoProject :=
  mkVideoProject (audioFile p) (audioUrl p) (duration p) segs.

(** [{ ...p, duration: d }]. *)
Definition with_duration (d : float) (p : VideoProject) : VideoProject :=
  mkVideoProject (audioFile p) (audioUrl p) d (segments p).

(** ** geminiService.ts *)

(** One object of the array the analysis service answers with. *)
Record RawItem := mkRawItem {
  start_time : float;
  end_time : float;
  raw_text : string;
  visual_description : string;
  raw_emotion : string
}.

(** What the body of [analyzeAudioAndSegment]'s [try] meets before its final
    [map]: either the parsed array, or a throw (the file cannot be read, the
    request rejects, the text is not JSON, the parsed value has no [map]). *)
Inductive ServiceReply :=
| reply_items (rawData : list RawItem)
| reply_throws.

Definition analysis_error : Js.Error :=
  Js.mkError "Failed to analyze audio. Please ensure the file is supported and under the size limit.".

(** [`seg-${index}-${Date.now()}`]. *)
Definition segment_id (index : nat) (now : N) : string :=
  "seg-" +:+ pretty index +:+ "-" +:+ pretty now.

(** [analyzeAudioAndSegment]; [now index] is what [Date.now()] returns while
    item [index] is mapped.  Every throw of the body is caught and replaced
    by [analysis_error]. *)
Definition analyzeAudioAndSegment (now : nat -> N) (reply : ServiceReply)
  : Js.result (list Segment) :=
  match reply with
  | reply_items rawData =>
      Js.Return (imap (fun index item =>
        mkSegment (segment_id index (now index)) (start_time item)
          (end_time item) (raw_text item) (visual_description item)
          (raw_emotion item) None) rawData)
  | reply_throws => Js.Throw analysis_error
  end.

(** [matchImagesToSegments].  The array is copied but its segment objects are
    not: the loop assigns to the caller's objects, so the list returned is
    also what the caller's array holds afterwards. *)
Definition matchImagesToSegments (segs : list Segment)
  (imgs : list UploadedImage) : Js.result (list Segment) :=
  if Nat.eqb (length imgs) 0 then Js.Return segs
  else
    Js.mapi_from (fun index seg =>
      let imageIndex := index mod length imgs in
      Js.bind (Js.index imgs imageIndex) (fun img =>
      Js.Return (with_assignedImageId (Some (img_id img)) seg))) 0 segs.

(** ** App.tsx *)

Record AppState := mkAppState {
  project : VideoProject;
  images : list UploadedImage;
  processing : ProcessingState;
  isPlaying : bool;
  currentTime : float
}.

Definition initial_state : AppState :=
  mkAppState (mkVideoProject None None 0 []) [] (mkProcessingState idle "")
    false 0.

(** [setProject(f)], [setImages(f)], [setProcessing(v)]. *)
Definition setProject (f : VideoProject -> VideoProject) (st : AppState) : AppState :=
  mkAppState (f (project st)) (images st) (processing st) (isPlaying st)
    (currentTime st).

Definition setImages (f : list UploadedImage -> list UploadedImage)
  (st : AppState) : AppState :=
  mkAppState (project st) (f (images st)) (processing st) (isPlaying st)
    (currentTime st).

Definition setProcessing (v : ProcessingState) (st : AppState) : AppState :=
  mkAppState (project st) (images st) v (isPlaying st) (currentTime st).

(** *** handleAudioUpload, cut at its awaits *)

(** Lines 31-32, once a file was picked; [url] is what
    [URL.createObjectURL(file)] returned. *)
Definition audio_upload_begins (file : File) (url : string) (st : AppState)
  : AppState :=
  setProcessing (mkProcessingState analyzing
                   "Listening and analyzing audio structure...")
    (setProject (fun prev =>
       mkVideoProject (Some file) (Some url) (duration prev) []) st).

(** [onloadedmetadata] fires with [audio.duration = d]. *)
Definition audio_metadata_loads (d : float) (st : AppState) : AppState :=
  setProject (with_duration d) st.

(** Lines 45-55: the analysis promise has settled as [analysis].
    [captured] is the [images] the handler closed over, the gallery of the
    render in which the upload started. *)
Definition audio_analysis_settles (captured : list UploadedImage)
  (analysis : Js.result (list Segment)) (st : AppState) : AppState :=
  match Js.bind analysis (fun segs => matchImagesToSegments segs captured) with
  | Js.Return segmentsWithImages =>
      setProcessing (mkProcessingState ready "Analysis complete.")
        (setProject (with_segments segmentsWithImages) st)
  | Js.Throw err =>
      setProcessing (mkProcessingState error
                       (Js.or_else (Js.err_message err) "Analysis failed.")) st
  end.

(** A whole run of [handleAudioUpload] with no other event in between.
    [picked] is [e.target.files?.[0]] with its object URL; [metadata] is
    [None] when [onloadedmetadata] never fires, and the handler then stays at
    its first await. *)
Definition handleAudioUpload (picked : option (File * string))
  (metadata : option float) (now : nat -> N) (reply : ServiceReply)
  (st : AppState) : AppState :=
  match picked with
  | None => st
  | Some (file, url) =>
      let st1 := audio_upload_begins file url st in
      match metadata with
      | None => st1
      | Some d =>
          audio_analysis_settles (images st)
            (analyzeAudioAndSegment now reply) (audio_metadata_loads d st1)
      end
  end.

(** *** handleImageUpload *)

(** One entry of [e.target.files] with what the browser returned while it
    was mapped: [Date.now()], [Math.random().toString(36).substr(2, 9)] and
    [URL.createObjectURL(file)]. *)
Record Pick := mkPick {
  pick_file : File;
  pick_now : N;
  pick_random : string;
  pick_url : string
}.

(** [`img-${Date.now()}-${Math.random().toString(36).substr(2, 9)}`]. *)
Definition image_id (now : N) (random : string) : string :=
  "img-" +:+ pretty now +:+ "-" +:+ random.

Definition new_image (p : Pick) : UploadedImage :=
  mkUploadedImage (image_id (pick_now p) (pick_random p)) (pick_file p)
    (pick_url p) (file_name (pick_file p)).

(** The [map] of lines 71-76 over [project.segments]. *)
Definition fill_unassigned (updated : list UploadedImage)
  (segs : list Segment) : Js.result (list Segment) :=
  Js.mapi_from (fun i seg =>
    if Js.falsy (assignedImageId seg) then
      Js.bind (Js.index updated (i mod length updated)) (fun img =>
      Js.Return (with_assignedImageId (Some (img_id img)) seg))
    else Js.Return seg) 0 segs.

(** [handleImageUpload]; [files] is [e.target.files], [None] when it is
    null.  The handler reads [project.segments] of the render it belongs to,
    here the state the event arrives in.  The result is the outcome of the
    state update the handler asks for: [Js.Return] is the state after React
    has run the updater handed to [setImages], and [Js.Throw] is that
    updater throwing while React runs it, which is after the handler itself
    has returned. *)
Definition handleImageUpload (files : option (list Pick)) (st : AppState)
  : Js.result AppState :=
  match files with
  | None => Js.Return st
  | Some picks =>
      let newImages := map new_image picks in
      let updated := images st ++ newImages in
      if Nat.ltb 0 (length (segments (project st))) then
        Js.bind (fill_unassigned updated (segments (project st)))
          (fun updatedSegments =>
             Js.Return (setImages (fun _ => updated)
                          (setProject (with_segments updatedSegments) st)))
      else Js.Return (setImages (fun _ => updated) st)
  end.

(** *** assignImageToSegment *)

Definition assignImageToSegment (segmentId imageId : string) (st : AppState)
  : AppState :=
  setProject (fun prev =>
    with_segments
      (map (fun seg =>
              if String.eqb (id seg) segmentId
              then with_assignedImageId (Some imageId) seg
              else seg) (segments prev)) prev) st.

(** *** The active segment *)

(** The predicate handed to [find]:
    [currentTime >= seg.startTime && currentTime < seg.endTime]. *)
Definition in_interval (t : float) (seg : Segment) : bool :=
  Js.ge t (startTime seg) && Js.lt t (endTime seg).

(** [project.segments.find(...)]; [undefined] is [None]. *)
Definition currentSegment (segs : list Segment) (t : float) : option Segment :=
  List.find (in_interval t) segs.

(** ** Timeline.tsx *)

(** [getBoundingClientRect()] of the track container, as far as it is read. *)
Record DOMRect := mkDOMRect {
  rect_left : float;
  rect_width : float
}.

(** [handleTimelineClick].  [container] is [containerRef.current] with its
    rectangle, [None] while the ref is null.  The callback [onSeek] is an
    effect on the owner's state [S]: calling it is applying it. *)
Definition handleTimelineClick {S : Type} (onSeek : float -> S -> S)
  (container : option DOMRect) (duration clientX : float) (s : S) : S :=
  match container with
  | None => s
  | Some rect =>
      if Js.strict_eq duration 0 then s
      else
        let x := clientX - rect_left rect in
        let percentage := Js.Math_max 0 (Js.Math_min 1 (x / rect_width rect)) in
        onSeek (percentage * duration) s
  end.

(** [handleDrop]: the drop assigns unless the dragged id is empty. *)
Definition handleDrop {S : Type} (onAssignImage : string -> string -> S -> S)
  (segmentId imageId : string) (s : S) : S :=
  if String.eqb imageId "" then s else onAssignImage segmentId imageId s.

(** ** The words of the specification *)

(** [startTime <= currentTime < endTime]. *)
Definition active_at (t : float) (seg : Segment) : Prop :=
  (startTime seg <=? t) = true /\ (t <? endTime seg) = true.

(** A sorted list of non-overlapping segments: every segment starts before
    it ends, and ends no later than the next one starts. *)
Fixpoint sorted_non_overlapping (segs : list Segment) : bool :=
  match segs with
  | [] => true
  | a :: rest =>
      (startTime a <? endTime a)
      && match rest with
         | [] => true
         | b :: _ => endTime a <=? startTime b
         end
      && sorted_non_overlapping rest
  end.

(** [clamp(v, lo, hi)]. *)
Definition clamp (v lo hi : float) : float :=
  if v <=? lo then lo else if hi <=? v then hi else v.

(** The pair an image id is built from. *)
Definition draw (p : Pick) : N * string := (pick_now p, pick_random p).

(** A string without the character [-]. *)
Fixpoint dash_free (s : string) : Prop :=
  match s with
  | EmptyString => True
  | String c rest => c <> "-"%char /\ dash_free rest
  end.

(** [Prim2SF 0.5] and [Prim2SF 2]. *)
Definition SF_half : spec_float := S754_finite false 4503599627370496 (-53).
Definition SF_two : spec_float := S754_finite false 4503599627370496 (-51).

(** ** Sample data *)

Definition narration (index : nat) (from to : float) (caption : string)
  (image : option string) : Segment :=
  mkSegment (segment_id index 1700000000000) from to caption "a scene" "Calm"
    image.

Definition three_unassigned : list Segment :=
  [narration 0 0 6 "a" None; narration 1 6 12 "b" None;
   narration 2 12 18 "c" None].

Definition with_project_segments (segs : list Segment) (st : AppState)
  : AppState :=
  setProject (with_segments segs) st.

Definition narration_mp3 : File := mkFile "narration.mp3" "audio/mpeg".

Definition jpeg (name : string) : File := mkFile name "image/jpeg".

Definition pick_sunrise : Pick :=
  mkPick (jpeg "sunrise.jpg") 1700000000123 "k3x9q0zq1" "blob:sunrise".

Definition pick_harbour : Pick :=
  mkPick (jpeg "harbour.jpg") 1700000000123 "8fj2m1p0a" "blob:harbour".

(** A third file that draws the clock value and the suffix of the first. *)
Definition pick_dusk : Pick :=
  mkPick (jpeg "dusk.jpg") 1700000000123 "k3x9q0zq1" "blob:dusk".

(** ** The rest of the code *)

(** *** geminiService.ts: fileToGenerativePart *)

(** [s.split(sep)] for a separator of one character: the pieces between the
    separators, empty pieces included. *)
Fixpoint split_on (sep : ascii) (s : string) : list string :=
  match s with
  | EmptyString => [EmptyString]
  | String c rest =>
      if Ascii.eqb c sep then EmptyString :: split_on sep rest
      else match split_on sep rest with
           | piece :: more => String c piece :: more
           | [] => [String c EmptyString]
           end
  end.

(** What [fileToGenerativePart] resolves with once the reader has loaded the
    file: [base64String.split(',')[1]], [undefined] being [None]. *)
Definition fileToGenerativePart (base64String : string) : option string :=
  split_on "," base64String !! 1%nat.

(** *** App.tsx: the image on display *)

(** [img.id === v] for an optional string [v]. *)
Definition id_is (v : option string) (img : UploadedImage) : bool :=
  match v with
  | Some wanted => String.eqb (img_id img) wanted
  | None => false
  end.

(** [currentDisplayImage]; [null] and [undefined] are both [None]. *)
Definition currentDisplayImage (st : AppState) : option UploadedImage :=
  match currentSegment (segments (project st)) (currentTime st) with
  | None => None
  | Some seg =>
      if Js.falsy (assignedImageId seg) then None
      else List.find (id_is (assignedImageId seg)) (images st)
  end.

(** *** Timeline.tsx: layout *)

Definition PIXELS_PER_SECOND : float := 50.

(** [Math.max(duration * PIXELS_PER_SECOND, 800)]. *)
Definition totalWidth (duration : float) : float :=
  Js.Math_max (duration * PIXELS_PER_SECOND) 800.

(** The image shown in a segment's block:
    [uploadedImages.find(img => img.id === seg.assignedImageId)]. *)
Definition assignedImg (uploadedImages : list UploadedImage) (seg : Segment)
  : option UploadedImage :=
  List.find (id_is (assignedImageId seg)) uploadedImages.

(** *** Words for the properties below *)

(** A segment without its image: what an assignment leaves alone. *)
Definition unassigned (seg : Segment) : Segment :=
  with_assignedImageId None seg.

(** Every segment has an image id that [!] reads as present. *)
Definition all_assigned (segs : list Segment) : Prop :=
  forall i seg, segs !! i = Some seg -> Js.falsy (assignedImageId seg) = false.

(** No image of the gallery has the empty id. *)
Definition ids_present (imgs : list UploadedImage) : Prop :=
  forall img, img ∈ imgs -> img_id img <> "".

(** A string without the character [c]. *)
Fixpoint char_free (c : ascii) (s : string) : Prop :=
  match s with
  | EmptyString => True
  | String c' rest => c' <> c /\ char_free c rest
  end.

(** [Prim2SF 1]. *)
Definition SF_one : spec_float := S754_finite false 4503599627370496 (-52).

(** A gallery entry with a given id, for the samples. *)
Definition stored (name : string) : UploadedImage :=
  mkUploadedImage name (jpeg name) name name.

(** *** The states the application reaches *)

(** The events that change the state, in any order: an audio upload
    starts, its metadata loads, its analysis settles, images are uploaded,
    an image is dropped on a segment, the playback position or the playing
    flag changes.  A settling analysis is matched against the gallery its
    handler closed over, which is what the gallery was at some earlier
    moment: a prefix of the present one, since the gallery only grows. *)
Inductive reachable : AppState -> Prop :=
| reachable_initial : reachable initial_state
| reachable_audio_begins st file url :
    reachable st -> reachable (audio_upload_begins file url st)
| reachable_metadata st d :
    reachable st -> reachable (audio_metadata_loads d st)
| reachable_settles st captured now reply :
    reachable st -> captured `prefix_of` images st ->
    reachable (audio_analysis_settles captured
                 (analyzeAudioAndSegment now reply) st)
| reachable_images st files st' :
    reachable st -> handleImageUpload files st = Js.Return st' ->
    reachable st'
| reachable_drop st segmentId imageId :
    reachable st ->
    reachable (handleDrop assignImageToSegment segmentId imageId st)
| reachable_playback st playing t :
    reachable st ->
    reachable (mkAppState (project st) (images st) (processing st) playing t).

(** No image id, in the gallery or on a segment, is the empty string. *)
Definition no_empty_id (st : AppState) : Prop :=
  ids_present (images st)
  /\ forall i seg, segments (project st) !! i = Some seg ->
       assignedImageId seg <> Some "".

(** *** Audio uploads in flight *)

(** What the steps of [handleAudioUpload] do to the state, as events that
    several uploads in flight interleave. *)
Inductive UploadEvent :=
| upload_begins (file : File) (url : string)
| upload_metadata (d : float)
| upload_resolves (captured : list UploadedImage) (now : nat -> N)
    (rawData : list RawItem)
| upload_rejects (captured : list UploadedImage).

Definition upload_step (st : AppState) (ev : UploadEvent) : AppState :=
  match ev with
  | upload_begins file url => audio_upload_begins file url st
  | upload_metadata d => audio_metadata_loads d st
  | upload_resolves captured now rawData =>
      audio_analysis_settles captured
        (analyzeAudioAndSegment now (reply_items rawData)) st
  | upload_rejects captured =>
      audio_analysis_settles captured (Js.Throw analysis_error) st
  end.

Definition upload_run (events : list UploadEvent) (st : AppState) : AppState :=
  fold_left upload_step events st.

Definition is_begins (ev : UploadEvent) : bool :=
  match ev with upload_begins _ _ => true | _ => false end.

Definition is_metadata (ev : UploadEvent) : bool :=
  match ev with upload_metadata _ => true | _ => false end.

Definition is_resolves (ev : UploadEvent) : bool :=
  match ev with upload_resolves _ _ _ => true | _ => false end.

(** *** More sample data *)

Definition spoken (from to : float) (words : string) : RawItem :=
  mkRawItem from to words "a scene" "Calm".

Definition three_items : list RawItem :=
  [spoken 0 6 "a"; spoken 6 12 "b"; spoken 12 18 "c"].

Definition first_mp3 : File := mkFile "first.mp3" "audio/mpeg".
Definition second_mp3 : File := mkFile "second.mp3" "audio/mpeg".

(** * Properties *)

(** ** The order of binary64 numbers

    The comparisons of [float] are specified by [SFcompare] on [spec_float];
    the facts the handlers need are proved there and carried back. *)

Section FloatOrder.

Local Ltac cases_compare :=
  repeat match goal with
  | |- context [Z.compare ?a ?b] => destruct (Z.compare_spec a b)
  | |- context [Pos.compare_cont Eq ?a ?b] =>
      change (Pos.compare_cont Eq a b) with (Pos.compare a b);
      destruct (Pos.compare_spec a b)
  end.

Local Ltac by_cases :=
  unfold SFeqb, SFleb, SFltb, SFcompare; try (intros; congruence);
  cases_compare; intros; simpl in *; subst; try congruence; try lia.

Lemma SFleb_trans (x y z : spec_float) :
  SFleb x y = true -> SFleb y z = true -> SFleb x z = true.
Proof.
  destruct x as [[]|[]| |[] ? ?], y as [[]|[]| |[] ? ?],
    z as [[]|[]| |[] ? ?]; by_cases.
Qed.

Lemma SFleb_SFltb_trans (x y z : spec_float) :
  SFleb x y = true -> SFltb y z = true -> SFltb x z = true.
Proof.
  destruct x as [[]|[]| |[] ? ?], y as [[]|[]| |[] ? ?],
    z as [[]|[]| |[] ? ?]; by_cases.
Qed.

Lemma SFltb_SFleb (x y : spec_float) :
  SFltb x y = true -> SFleb x y = true.
Proof.
  unfold SFltb, SFleb. destruct (SFcompare x y) as [[]|]; congruence.
Qed.

Lemma SFleb_not_SFltb (x y : spec_float) :
  SFleb x y = true -> SFltb y x = false.
Proof. destruct x as [[]|[]| |[] ? ?], y as [[]|[]| |[] ? ?]; by_cases. Qed.

Lemma SFeqb_refl_nan (x : spec_float) : SFeqb x x = false -> x = S754_nan.
Proof.
  destruct x as [[]|[]| |[] m e]; unfold SFeqb; simpl; try congruence;
    rewrite Z.compare_refl, Pos.compare_cont_refl; simpl; congruence.
Qed.

Lemma SFleb_total (x y : spec_float) :
  SFeqb x x = true -> SFeqb y y = true -> SFleb x y = false ->
  SFltb y x = true.
Proof. destruct x as [[]|[]| |[] ? ?], y as [[]|[]| |[] ? ?]; by_cases. Qed.

Lemma SFleb_not_nan (x y : spec_float) :
  SFleb x y = true -> SFeqb x x = true /\ SFeqb y y = true.
Proof.
  destruct x as [[]|[]| |[] ? ?], y as [[]|[]| |[] ? ?];
    unfold SFeqb, SFleb; simpl; try (intros; congruence); intros _;
    rewrite ?Z.compare_refl, ?Pos.compare_cont_refl; simpl; auto.
Qed.

Lemma SFleb_one_eq (x : spec_float) :
  SFleb (S754_finite false 4503599627370496 (-52)) x = true ->
  SFltb (S754_finite false 4503599627370496 (-52)) x = false ->
  x = S754_finite false 4503599627370496 (-52).
Proof. destruct x as [[]|[]| |[] m e]; by_cases. Qed.

End FloatOrder.

Lemma float_le_trans (a b c : float) :
  (a <=? b) = true -> (b <=? c) = true -> (a <=? c) = true.
Proof. rewrite !leb_spec. apply SFleb_trans. Qed.

Lemma float_le_lt_trans (a b c : float) :
  (a <=? b) = true -> (b <? c) = true -> (a <? c) = true.
Proof. rewrite leb_spec, !ltb_spec. apply SFleb_SFltb_trans. Qed.

Lemma float_lt_le (a b : float) : (a <? b) = true -> (a <=? b) = true.
Proof. rewrite leb_spec, ltb_spec. apply SFltb_SFleb. Qed.

Lemma float_le_not_lt (a b : float) : (a <=? b) = true -> (b <? a) = false.
Proof. rewrite leb_spec, ltb_spec. apply SFleb_not_SFltb. Qed.

Lemma float_nan_eq (q : float) : is_nan q = true -> q = nan.
Proof.
  unfold is_nan. rewrite FloatAxioms.eqb_spec. intros H.
  apply negb_true_iff, SFeqb_refl_nan in H.
  apply Prim2SF_inj. rewrite H. reflexivity.
Qed.

Lemma float_le_not_nan (a b : float) :
  (a <=? b) = true -> is_nan a = false /\ is_nan b = false.
Proof.
  unfold is_nan. rewrite leb_spec, !FloatAxioms.eqb_spec. intros H.
  apply SFleb_not_nan in H as [-> ->]. auto.
Qed.

Lemma float_not_le_lt (a b : float) :
  is_nan a = false -> is_nan b = false -> (a <=? b) = false ->
  (b <? a) = true.
Proof.
  unfold is_nan. rewrite leb_spec, ltb_spec, !FloatAxioms.eqb_spec. intros Ha Hb.
  apply negb_false_iff in Ha, Hb. now apply SFleb_total.
Qed.

Lemma float_le_one_eq (q : float) :
  (1 <=? q) = true -> (1 <? q) = false -> q = 1.
Proof.
  rewrite leb_spec, ltb_spec.
  change (Prim2SF 1) with (S754_finite false 4503599627370496 (-52)).
  intros H1 H2. apply Prim2SF_inj. apply (SFleb_one_eq _ H1 H2).
Qed.

(** ** Doubling and halving

    [2 * x] is exact for a finite [x] unless it overflows, and dividing [x]
    by its double gives exactly one half. *)

Section Halving.

Local Open Scope Z_scope.

Lemma div_eucl_pair (a b : Z) : Z.div_eucl a b = (a / b, a mod b).
Proof. unfold Z.div, Z.modulo. destruct (Z.div_eucl a b). reflexivity. Qed.

Lemma div_eucl_shift (m : positive) (k : Z) :
  0 <= k -> Z.div_eucl (Z.shiftl (Z.pos m) k) (Z.pos m) = (2 ^ k, 0).
Proof.
  intros Hk. rewrite div_eucl_pair, Z.shiftl_mul_pow2 by exact Hk.
  rewrite (Z.mul_comm (Z.pos m)).
  rewrite Z.div_mul, Z.mod_mul by lia. reflexivity.
Qed.

Lemma div_eucl_shift_double (m : positive) (k : Z) :
  0 <= k ->
  Z.div_eucl (Z.shiftl (Z.pos m) (k + 1)) (Z.pos m~0) = (2 ^ k, 0).
Proof.
  intros Hk. rewrite div_eucl_pair, Z.shiftl_mul_pow2 by lia.
  rewrite Z.pow_add_r by lia.
  replace (Z.pos m * (2 ^ k * 2 ^ 1)) with (2 ^ k * Z.pos m~0) by lia.
  rewrite Z.div_mul, Z.mod_mul by lia. reflexivity.
Qed.

Lemma new_location_zero (n : Z) : new_location n 0 = loc_Exact.
Proof. unfold new_location. destruct (Z.even n); reflexivity. Qed.

Lemma SFdiv_half_same_mantissa (m : positive) (e : Z) :
  SFdiv prec emax (S754_finite false m e) (S754_finite false m (e + 1))
  = SF_half.
Proof.
  unfold SFdiv, SFdiv_core_binary. cbn [Zdigits2].
  replace (Z.pos (digits2_pos m) + e - (Z.pos (digits2_pos m) + (e + 1)))
    with (-1) by lia.
  replace (e - (e + 1)) with (-1) by lia.
  change (Z.min (fexp prec emax (-1)) (-1)) with (-54).
  change (-1 - -54) with 53.
  cbv beta iota zeta.
  rewrite div_eucl_shift by lia.
  rewrite new_location_zero.
  vm_compute. reflexivity.
Qed.

Lemma SFdiv_half_double_mantissa (m : positive) (e : Z) :
  SFdiv prec emax (S754_finite false m e) (S754_finite false m~0 e)
  = SF_half.
Proof.
  unfold SFdiv, SFdiv_core_binary. cbn [Zdigits2 digits2_pos].
  replace (Z.pos (digits2_pos m) + e
           - (Z.pos (Pos.succ (digits2_pos m)) + e)) with (-1) by lia.
  replace (e - e) with 0 by lia.
  change (Z.min (fexp prec emax (-1)) 0) with (-54).
  change (0 - -54) with 54.
  cbv beta iota zeta.
  change 54 with (53 + 1).
  rewrite div_eucl_shift_double by lia.
  rewrite new_location_zero.
  vm_compute. reflexivity.
Qed.

Lemma digits_shift52 (m : positive) :
  Zdigits2 (Z.pos (4503599627370496 * m)) = Z.pos (digits2_pos m) + 52.
Proof.
  unfold Zdigits2. cbv beta iota delta [Pos.mul]. cbn [digits2_pos].
  rewrite !Pos2Z.inj_succ. lia.
Qed.

Lemma bounded_cases (m : positive) (e : Z) :
  bounded prec emax m e = true ->
  e <= 971
  /\ ((Z.pos (digits2_pos m) = 53 /\ -1074 <= e)
      \/ (Z.pos (digits2_pos m) < 53 /\ e = -1074)).
Proof.
  unfold bounded, canonical_mantissa, fexp, SpecFloat.emin, prec, emax.
  intros H. apply andb_true_iff in H as [Hc Hb].
  apply Z.eqb_eq in Hc. apply Z.leb_le in Hb. lia.
Qed.

Lemma shr_fexp_normal (m : positive) (e : Z) :
  Z.pos (digits2_pos m) = 53 -> -1074 <= e ->
  shr_fexp prec emax (Z.pos (4503599627370496 * m)) (-51 + e) loc_Exact
  = ({| shr_m := Z.pos m; shr_r := false; shr_s := false |}, e + 1).
Proof.
  intros Hd He. unfold shr_fexp. rewrite digits_shift52.
  replace (fexp prec emax (Z.pos (digits2_pos m) + 52 + (-51 + e))
           - (-51 + e))
    with 52 by (unfold fexp, SpecFloat.emin, prec, emax; lia).
  unfold shr. apply f_equal2; [reflexivity | lia].
Qed.

Lemma shr_fexp_subnormal (m : positive) :
  Z.pos (digits2_pos m) < 53 ->
  shr_fexp prec emax (Z.pos (4503599627370496 * m)) (-51 + -1074) loc_Exact
  = ({| shr_m := Z.pos m~0; shr_r := false; shr_s := false |}, -1074).
Proof.
  intros Hd. unfold shr_fexp. rewrite digits_shift52.
  replace (fexp prec emax (Z.pos (digits2_pos m) + 52 + (-51 + -1074))
           - (-51 + -1074))
    with 51 by (unfold fexp, SpecFloat.emin, prec, emax; lia).
  unfold shr. apply f_equal2; reflexivity.
Qed.

Lemma shr_fexp_canonical (q : positive) (e : Z) :
  fexp prec emax (Z.pos (digits2_pos q) + e) = e ->
  shr_fexp prec emax (Z.pos q) e loc_Exact
  = ({| shr_m := Z.pos q; shr_r := false; shr_s := false |}, e).
Proof.
  intros H. unfold shr_fexp. cbn [Zdigits2].
  rewrite H, Z.sub_diag. reflexivity.
Qed.

Lemma SFmul_two (m : positive) (e : Z) :
  bounded prec emax m e = true ->
  SFmul prec emax SF_two (S754_finite false m e)
  = if Z.pos (digits2_pos m) =? 53
    then if e + 1 <=? 971 then S754_finite false m (e + 1)
         else S754_infinity false
    else S754_finite false m~0 e.
Proof.
  intros Hb. destruct (bounded_cases m e Hb) as [Hle [[Hd He]|[Hd ->]]].
  - rewrite Hd. change (53 =? 53) with true. cbv iota.
    unfold SF_two, SFmul, binary_round_aux. cbn [xorb].
    rewrite (shr_fexp_normal m e Hd He).
    cbn [shr_m loc_of_shr_record round_nearest_even].
    rewrite shr_fexp_canonical
      by (unfold fexp, SpecFloat.emin, prec, emax; lia).
    cbn [shr_m]. reflexivity.
  - destruct (Z.eqb_spec (Z.pos (digits2_pos m)) 53) as [Heq|_]; [lia|].
    unfold SF_two, SFmul, binary_round_aux. cbn [xorb].
    rewrite (shr_fexp_subnormal m Hd).
    cbn [shr_m loc_of_shr_record round_nearest_even].
    rewrite shr_fexp_canonical.
    + reflexivity.
    + cbn [digits2_pos]. rewrite Pos2Z.inj_succ.
      unfold fexp, SpecFloat.emin, prec, emax; lia.
Qed.

(** The product of [2] and a number that is not positive is not positive. *)
Lemma SFmul_two_positive (x : spec_float) :
  SFltb (S754_zero false) (SFmul prec emax SF_two x) = true ->
  SFltb (S754_zero false) x = true.
Proof.
  destruct x as [[]|[]| |[] m e]; try (simpl; congruence); try reflexivity.
  unfold SF_two, SFmul, binary_round_aux. cbn [xorb].
  destruct (shr_fexp _ _ _ _ _) as [mrs e1].
  destruct (shr_fexp _ _ _ _ _) as [mrs' e2].
  destruct (shr_m mrs'); [intros H; discriminate H| |intros H; discriminate H].
  destruct (e2 <=? emax - prec); intros H; discriminate H.
Qed.

End Halving.

Lemma float_half_of_double (x : float) :
  (0 <? 2 * x) = true -> (2 * x <? infinity) = true -> x / (2 * x) = 0.5.
Proof.
  rewrite !ltb_spec. intros Hpos Hfin.
  apply Prim2SF_inj. rewrite div_spec.
  rewrite mul_spec in Hpos, Hfin |- *.
  change (Prim2SF 2) with SF_two in *.
  change (Prim2SF 0) with (S754_zero false) in Hpos.
  change (Prim2SF infinity) with (S754_infinity false) in Hfin.
  change (Prim2SF 0.5) with SF_half.
  unfold SF64mul, SF64div in *.
  apply SFmul_two_positive in Hpos.
  pose proof (Prim2SF_valid x) as Hvalid.
  destruct (Prim2SF x) as [s|s| |s m e]; try discriminate Hpos.
  - destruct s; [discriminate Hpos|discriminate Hfin].
  - destruct s; [discriminate Hpos|].
    cbn [SpecFloat.valid_binary] in Hvalid.
    rewrite (SFmul_two m e Hvalid) in Hfin |- *.
    destruct (Z.pos (digits2_pos m) =? 53)%Z.
    + destruct (e + 1 <=? 971)%Z; [|discriminate Hfin].
      apply SFdiv_half_same_mantissa.
    + apply SFdiv_half_double_mantissa.
Qed.

Local Close Scope float_scope.

(** ** The active segment *)

Lemma in_interval_active_at (t : float) (seg : Segment) :
  in_interval t seg = true <-> active_at t seg.
Proof.
  unfold in_interval, active_at, Js.ge, Js.lt.
  rewrite andb_true_iff. reflexivity.
Qed.

Lemma find_first {A : Type} (p : A -> bool) (l : list A) :
  match List.find p l with
  | Some x =>
      exists i, l !! i = Some x /\ p x = true
        /\ forall j y, j < i -> l !! j = Some y -> p y = false
  | None => forall i y, l !! i = Some y -> p y = false
  end.
Proof.
  induction l as [|a l IH]; simpl.
  - intros i y H. destruct i; discriminate H.
  - destruct (p a) eqn:Ha.
    + exists 0. repeat split; auto. intros j y Hj. lia.
    + destruct (List.find p l) as [x|].
      * destruct IH as (i & Hi & Hx & Hbefore).
        exists (S i). repeat split; auto.
        intros [|j] y Hj Hy; simpl in Hy.
        -- congruence.
        -- apply (Hbefore j); [lia | exact Hy].
      * intros [|i] y Hy; simpl in Hy.
        -- congruence.
        -- apply (IH i). exact Hy.
Qed.

Lemma sorted_head_before (a : Segment) (rest : list Segment) :
  sorted_non_overlapping (a :: rest) = true ->
  forall j b, rest !! j = Some b -> (endTime a <=? startTime b)%float = true.
Proof.
  revert a. induction rest as [|c rest IH]; intros a Hs j b Hb.
  - destruct j; discriminate Hb.
  - cbn [sorted_non_overlapping] in Hs.
    apply andb_true_iff in Hs as [Hs Hrest].
    apply andb_true_iff in Hs as [_ Hac].
    destruct j as [|j]; simpl in Hb.
    + injection Hb as <-. exact Hac.
    + pose proof (IH c Hrest j b Hb) as Hcb.
      cbn [sorted_non_overlapping] in Hrest.
      apply andb_true_iff in Hrest as [Hc _].
      apply andb_true_iff in Hc as [Hc _].
      apply float_le_trans with (startTime c); [exact Hac|].
      apply float_le_trans with (endTime c); [|exact Hcb].
      apply float_lt_le, Hc.
Qed.

Lemma sorted_pairwise (segs : list Segment) :
  sorted_non_overlapping segs = true ->
  forall i j a b, i < j -> segs !! i = Some a -> segs !! j = Some b ->
    (endTime a <=? startTime b)%float = true.
Proof.
  induction segs as [|c segs IH]; intros Hs i j a b Hij Ha Hb.
  - destruct i; discriminate Ha.
  - destruct j as [|j]; [lia|]. simpl in Hb.
    destruct i as [|i]; simpl in Ha.
    + injection Ha as <-. exact (sorted_head_before _ _ Hs j b Hb).
    + apply (IH ltac:(cbn [sorted_non_overlapping] in Hs;
                      apply andb_true_iff in Hs as [_ Hs]; exact Hs)
               i j a b); [lia | exact Ha | exact Hb].
Qed.

Lemma active_disjoint (t : float) (a b : Segment) :
  (endTime a <=? startTime b)%float = true ->
  active_at t a -> active_at t b -> False.
Proof.
  intros Hab [_ Ha] [Hb _].
  pose proof (float_le_trans _ _ _ Hab Hb) as Hle.
  apply float_le_not_lt in Hle. congruence.
Qed.

(** C1: [currentSegment] returns the first segment of the list whose interval
    holds the current time, and [None] when no interval holds it; in a sorted
    list of non-overlapping segments at most one position holds it, and that
    one is returned. *)
Theorem currentSegment_first_active (segs : list Segment) (t : float) :
  match currentSegment segs t with
  | Some seg =>
      exists i, segs !! i = Some seg /\ active_at t seg
        /\ forall j s, j < i -> segs !! j = Some s -> ~ active_at t s
  | None => forall i s, segs !! i = Some s -> ~ active_at t s
  end
  /\ (sorted_non_overlapping segs = true ->
      forall i j a b,
        segs !! i = Some a -> active_at t a ->
        segs !! j = Some b -> active_at t b ->
        i = j /\ currentSegment segs t = Some a).
Proof.
  assert (Hfirst := find_first (in_interval t) segs).
  fold (currentSegment segs t) in Hfirst.
  assert (Hno : forall s, in_interval t s = false -> ~ active_at t s).
  { intros s Hs Hact. apply in_interval_active_at in Hact. congruence. }
  split.
  - destruct (currentSegment segs t) as [seg|].
    + destruct Hfirst as (i & Hi & Hp & Hbefore).
      exists i. split; [exact Hi|]. split; [now apply in_interval_active_at|].
      intros j s Hj Hs. apply Hno. exact (Hbefore j s Hj Hs).
    + intros i s Hs. apply Hno. exact (Hfirst i s Hs).
  - intros Hsorted i j a b Ha Hta Hb Htb.
    assert (Heq : forall i j a b, segs !! i = Some a -> active_at t a ->
              segs !! j = Some b -> active_at t b -> i = j).
    { clear - Hsorted. intros i j a b Ha Hta Hb Htb.
      destruct (Nat.lt_trichotomy i j) as [Hlt|[Heq|Hgt]]; [|exact Heq|].
      - exfalso. eapply active_disjoint; [|exact Hta|exact Htb].
        exact (sorted_pairwise segs Hsorted i j a b Hlt Ha Hb).
      - exfalso. eapply active_disjoint; [|exact Htb|exact Hta].
        exact (sorted_pairwise segs Hsorted j i b a Hgt Hb Ha). }
    split; [exact (Heq i j a b Ha Hta Hb Htb)|].
    destruct (currentSegment segs t) as [seg|].
    + destruct Hfirst as (k & Hk & Hp & _).
      apply in_interval_active_at in Hp.
      assert (k = i) as -> by exact (Heq k i seg a Hk Hp Ha Hta).
      congruence.
    + apply in_interval_active_at in Hta.
      rewrite (Hfirst i a Ha) in Hta. discriminate.
Qed.

(** ** Loops that may throw *)

Lemma mapi_from_Return_inv {A B : Type} (f : nat -> A -> Js.result B)
  (l : list A) :
  forall k ys, Js.mapi_from f k l = Js.Return ys ->
    length ys = length l
    /\ forall i x, l !! i = Some x ->
         exists y, f (k + i)%nat x = Js.Return y /\ ys !! i = Some y.
Proof.
  induction l as [|a l IH]; intros k ys H; simpl in H.
  - injection H as <-. split; [reflexivity|].
    intros i x Hx. destruct i; discriminate Hx.
  - destruct (f k a) as [y|e] eqn:Hfa; simpl in H; [|discriminate H].
    destruct (Js.mapi_from f (S k) l) as [ys'|e] eqn:Hrest; simpl in H;
      [|discriminate H].
    injection H as <-.
    destruct (IH (S k) ys' Hrest) as [Hlen Hall].
    split; [simpl; congruence|].
    intros [|i] x Hx; simpl in Hx.
    + injection Hx as <-. exists y. rewrite Nat.add_0_r. split; [exact Hfa|reflexivity].
    + destruct (Hall i x Hx) as (y' & Hy' & Hi).
      exists y'. rewrite Nat.add_succ_r. split; [exact Hy'|exact Hi].
Qed.

Lemma mapi_from_total {A B : Type} (f : nat -> A -> Js.result B)
  (l : list A) :
  forall k,
    (forall i x, l !! i = Some x -> exists y, f (k + i)%nat x = Js.Return y) ->
    exists ys, Js.mapi_from f k l = Js.Return ys.
Proof.
  induction l as [|a l IH]; intros k Hf; simpl.
  - eexists. reflexivity.
  - destruct (Hf 0 a eq_refl) as (y & Hy).
    rewrite Nat.add_0_r in Hy. rewrite Hy. simpl.
    destruct (IH (S k)) as (ys & Hys).
    { intros i x Hx. destruct (Hf (S i) x Hx) as (y' & Hy').
      exists y'. rewrite Nat.add_succ_r in Hy'. exact Hy'. }
    rewrite Hys. simpl. eexists. reflexivity.
Qed.

Lemma index_in_range {A : Type} (arr : list A) (i : nat) :
  (0 < length arr)%nat ->
  exists x, arr !! (i mod length arr)%nat = Some x
            /\ Js.index arr (i mod length arr) = Js.Return x.
Proof.
  intros Hlen.
  assert (Hlt : (i mod length arr < length arr)%nat)
    by (apply Nat.mod_upper_bound; lia).
  apply lookup_lt_is_Some in Hlt as [x Hx].
  exists x. split; [exact Hx|]. unfold Js.index. rewrite Hx. reflexivity.
Qed.

Lemma lookup_map {A B : Type} (f : A -> B) (l : list A) (i : nat) :
  map f l !! i = f <$> l !! i.
Proof.
  revert i. induction l as [|a l IH]; intros [|i]; simpl; auto.
Qed.

(** ** assignImageToSegment *)

Lemma assign_segments (segmentId imageId : string) (st : AppState) :
  segments (project (assignImageToSegment segmentId imageId st))
  = map (fun seg => if String.eqb (id seg) segmentId
                    then with_assignedImageId (Some imageId) seg else seg)
        (segments (project st)).
Proof. reflexivity. Qed.

(** C6: [assignImageToSegment] rewrites [assignedImageId], and only it, on
    the segments whose id is [segmentId], and touches nothing else of the
    state; with distinct ids that is the single matching segment; with no
    matching id the segment list is unchanged.  The gallery is not
    consulted: any [imageId] is stored. *)
Theorem assignImageToSegment_spec (segmentId imageId : string) (st : AppState) :
  let st' := assignImageToSegment segmentId imageId st in
  images st' = images st
  /\ processing st' = processing st
  /\ isPlaying st' = isPlaying st
  /\ currentTime st' = currentTime st
  /\ audioFile (project st') = audioFile (project st)
  /\ audioUrl (project st') = audioUrl (project st)
  /\ duration (project st') = duration (project st)
  /\ length (segments (project st')) = length (segments (project st))
  /\ (forall i seg, segments (project st) !! i = Some seg ->
        segments (project st') !! i
        = Some (if decide (id seg = segmentId)
                then mkSegment (id seg) (startTime seg) (endTime seg)
                       (text seg) (visualPrompt seg) (emotion seg)
                       (Some imageId)
                else seg))
  /\ (forall k target,
        NoDup (map id (segments (project st))) ->
        segments (project st) !! k = Some target ->
        id target = segmentId ->
        segments (project st')
        = <[k := with_assignedImageId (Some imageId) target]>
            (segments (project st)))
  /\ ((forall seg, seg ∈ segments (project st) -> id seg <> segmentId) ->
      st' = st).
Proof.
  intros st'. subst st'. rewrite assign_segments.
  repeat (split; [reflexivity|]).
  split; [apply length_map|].
  split; [|split].
  - intros i seg Hi. rewrite lookup_map, Hi. simpl. f_equal.
    destruct (String.eqb_spec (id seg) segmentId);
      destruct (decide (id seg = segmentId)); congruence || reflexivity.
  - intros k target Hnodup Hk Hid.
    apply list_eq. intros i.
    rewrite lookup_map.
    destruct (decide (i = k)) as [->|Hne].
    + rewrite Hk. simpl. rewrite list_lookup_insert_eq
        by (eapply lookup_lt_Some; exact Hk).
      rewrite <- Hid, String.eqb_refl. reflexivity.
    + rewrite list_lookup_insert_ne by congruence.
      destruct (segments (project st) !! i) as [seg|] eqn:Hi; [|reflexivity].
      simpl. destruct (String.eqb_spec (id seg) segmentId) as [Heq|]; [|reflexivity].
      exfalso. apply Hne.
      apply (NoDup_lookup _ i k (id seg) Hnodup).
      * rewrite lookup_map, Hi. reflexivity.
      * rewrite lookup_map, Hk. simpl. congruence.
  - intros Hnone.
    assert (Hsame : map (fun seg => if String.eqb (id seg) segmentId
                                    then with_assignedImageId (Some imageId) seg
                                    else seg) (segments (project st))
                    = segments (project st)).
    { rewrite <- (map_id (segments (project st))) at 2.
      apply map_ext_in. intros seg Hin.
      apply list_elem_of_In in Hin.
      destruct (String.eqb_spec (id seg) segmentId) as [Heq|]; [|reflexivity].
      exfalso. exact (Hnone seg Hin Heq). }
    unfold assignImageToSegment, setProject, with_segments.
    rewrite Hsame. destruct st as [[? ? ? ?] ? ? ? ?]. reflexivity.
Qed.

(** C7: assigning the same image to the same segment a second time changes
    nothing. *)
Theorem assignImageToSegment_idempotent (segId imgId : string) (st : AppState) :
  assignImageToSegment segId imgId (assignImageToSegment segId imgId st)
  = assignImageToSegment segId imgId st.
Proof.
  unfold assignImageToSegment, setProject, with_segments. simpl.
  f_equal. f_equal.
  rewrite map_map. apply map_ext. intros seg.
  destruct (String.eqb (id seg) segId) eqn:Heq; simpl; rewrite Heq; reflexivity.
Qed.

(** ** Auto-fill *)

Lemma matchImagesToSegments_nonempty (segs : list Segment)
  (imgs : list UploadedImage) :
  0 < length imgs ->
  exists out,
    matchImagesToSegments segs imgs = Js.Return out
    /\ length out = length segs
    /\ forall i seg, segs !! i = Some seg ->
         exists img,
           imgs !! (i mod length imgs)%nat = Some img
           /\ out !! i = Some (with_assignedImageId (Some (img_id img)) seg).
Proof.
  intros Hlen. unfold matchImagesToSegments.
  destruct (Nat.eqb_spec (length imgs) 0) as [Hz|_]; [lia|].
  match goal with |- context [Js.mapi_from ?f 0 segs] => set (body := f) end.
  destruct (mapi_from_total body segs 0) as (out & Hout).
  { intros i seg _. subst body. simpl.
    destruct (index_in_range imgs i Hlen) as (img & _ & ->).
    simpl. eexists. reflexivity. }
  exists out. split; [exact Hout|].
  destruct (mapi_from_Return_inv body segs 0 out Hout) as [Hl Hall].
  split; [exact Hl|].
  intros i seg Hi. destruct (Hall i seg Hi) as (y & Hy & Hyi).
  subst body. simpl in Hy.
  destruct (index_in_range imgs i Hlen) as (img & Himg & Hidx).
  rewrite Hidx in Hy. simpl in Hy. injection Hy as <-.
  exists img. split; [exact Himg|exact Hyi].
Qed.

Lemma analyzed_segments_unassigned (now : nat -> N) (rawData : list RawItem) :
  exists fresh,
    analyzeAudioAndSegment now (reply_items rawData) = Js.Return fresh
    /\ length fresh = length rawData
    /\ forall i seg, fresh !! i = Some seg -> assignedImageId seg = None.
Proof.
  simpl. eexists. split; [reflexivity|]. split; [apply length_imap|].
  intros i seg Hi. rewrite list_lookup_imap in Hi.
  destruct (rawData !! i); simpl in Hi; [|discriminate Hi].
  injection Hi as <-. reflexivity.
Qed.

Lemma matchImagesToSegments_empty (segs : list Segment)
  (imgs : list UploadedImage) :
  length imgs = 0 -> matchImagesToSegments segs imgs = Js.Return segs.
Proof. intros Hz. unfold matchImagesToSegments. rewrite Hz. reflexivity. Qed.



Lemma fill_unassigned_inv (updated : list UploadedImage) (segs out : list Segment) :
  fill_unassigned updated segs = Js.Return out ->
  length out = length segs
  /\ forall i seg, segs !! i = Some seg ->
       if Js.falsy (assignedImageId seg)
       then exists img,
              updated !! (i mod length updated)%nat = Some img
              /\ out !! i = Some (with_assignedImageId (Some (img_id img)) seg)
       else out !! i = Some seg.
Proof.
  intros Hout. unfold fill_unassigned in Hout.
  destruct (mapi_from_Return_inv _ segs 0 out Hout) as [Hl Hall].
  split; [exact Hl|].
  intros i seg Hi. destruct (Hall i seg Hi) as (y & Hy & Hyi).
  simpl in Hy. destruct (Js.falsy (assignedImageId seg)).
  - unfold Js.index in Hy.
    destruct (updated !! (i mod length updated)%nat) as [img|];
      simpl in Hy; [|discriminate Hy].
    injection Hy as <-. exists img. split; [reflexivity|exact Hyi].
  - injection Hy as <-. exact Hyi.
Qed.

Lemma fill_unassigned_total (updated : list UploadedImage) (segs : list Segment) :
  (0 < length updated)%nat ->
  exists out, fill_unassigned updated segs = Js.Return out.
Proof.
  intros Hlen. unfold fill_unassigned. apply mapi_from_total.
  intros i seg _. simpl. destruct (Js.falsy (assignedImageId seg)).
  - destruct (index_in_range updated i Hlen) as (img & _ & ->).
    simpl. eexists. reflexivity.
  - eexists. reflexivity.
Qed.

Lemma handleImageUpload_inv (picks : list Pick) (st st' : AppState) :
  handleImageUpload (Some picks) st = Js.Return st' ->
  images st' = images st ++ map new_image picks
  /\ (segments (project st') = segments (project st)
      /\ segments (project st) = []
      \/ fill_unassigned (images st') (segments (project st))
         = Js.Return (segments (project st'))).
Proof.
  unfold handleImageUpload.
  destruct (Nat.ltb_spec 0 (length (segments (project st)))) as [Hpos|Hz].
  - destruct (fill_unassigned _ _) as [out|e] eqn:Hfill; simpl; [|discriminate].
    intros H. injection H as <-. simpl. split; [reflexivity|].
    right. exact Hfill.
  - intros H. injection H as <-. simpl. split; [reflexivity|].
    left. split; [reflexivity|].
    destruct (segments (project st)); [reflexivity|simpl in Hz; lia].
Qed.

(** C5: when images are added and the updated gallery holds [L > 0] images,
    the upload succeeds, and every segment without an assigned image gets the
    image at index [i mod L] of the whole updated gallery, [i] being the
    segment's own index. *)
Theorem handleImageUpload_fills_unassigned (picks : list Pick) (st : AppState) :
  (0 < length (images st ++ map new_image picks))%nat ->
  exists st',
    handleImageUpload (Some picks) st = Js.Return st'
    /\ images st' = images st ++ map new_image picks
    /\ length (segments (project st')) = length (segments (project st))
    /\ forall i seg,
         segments (project st) !! i = Some seg ->
         Js.falsy (assignedImageId seg) = true ->
         exists img,
           images st' !! (i mod length (images st'))%nat = Some img
           /\ segments (project st') !! i
              = Some (with_assignedImageId (Some (img_id img)) seg).
Proof.
  intros Hlen.
  assert (Hret : exists st', handleImageUpload (Some picks) st = Js.Return st').
  { unfold handleImageUpload.
    destruct (Nat.ltb 0 (length (segments (project st)))); [|eexists; reflexivity].
    destruct (fill_unassigned_total _ (segments (project st)) Hlen) as (out & ->).
    simpl. eexists. reflexivity. }
  destruct Hret as (st' & Hst'). exists st'. split; [exact Hst'|].
  destruct (handleImageUpload_inv picks st st' Hst') as [Himgs Hsegs].
  split; [exact Himgs|].
  destruct Hsegs as [[Hsame Hnil]|Hfill].
  - split; [congruence|]. intros i seg Hi. rewrite Hnil in Hi.
    destruct i; discriminate Hi.
  - destruct (fill_unassigned_inv _ _ _ Hfill) as [Hl Hall].
    split; [exact Hl|]. intros i seg Hi Hfalsy.
    specialize (Hall i seg Hi). rewrite Hfalsy in Hall. exact Hall.
Qed.

(** C5, at the sample data: three unassigned segments and a gallery growing
    from no image to two give the images at indices 0, 1, 0. *)
Lemma handleImageUpload_fills_unassigned_witness :
  exists st',
    handleImageUpload (Some [pick_sunrise; pick_harbour])
      (with_project_segments three_unassigned initial_state) = Js.Return st'
    /\ images st' = [new_image pick_sunrise; new_image pick_harbour]
    /\ map assignedImageId (segments (project st'))
       = [Some (img_id (new_image pick_sunrise));
          Some (img_id (new_image pick_harbour));
          Some (img_id (new_image pick_sunrise))].
Proof.
  destruct (handleImageUpload_fills_unassigned [pick_sunrise; pick_harbour]
              (with_project_segments three_unassigned initial_state))
    as (st' & Hst' & Himgs & _ & _).
  - simpl. lia.
  - exists st'. split; [exact Hst'|]. split; [exact Himgs|].
    vm_compute in Hst'. injection Hst' as <-. vm_compute. reflexivity.
Defined.

(** Trigger A keeps every segment whose [assignedImageId] is a non-empty
    string. *)
Lemma handleImageUpload_keeps_assigned (files : option (list Pick))
  (st st' : AppState) :
  handleImageUpload files st = Js.Return st' ->
  forall i seg,
    segments (project st) !! i = Some seg ->
    Js.falsy (assignedImageId seg) = false ->
    segments (project st') !! i = Some seg.
Proof.
  intros Hst' i seg Hi Hset. destruct files as [picks|].
  - destruct (handleImageUpload_inv picks st st' Hst') as [_ [[Hsame _]|Hfill]].
    + rewrite Hsame. exact Hi.
    + destruct (fill_unassigned_inv _ _ _ Hfill) as [_ Hall].
      specialize (Hall i seg Hi). rewrite Hset in Hall. exact Hall.
  - injection Hst' as <-. exact Hi.
Qed.

Lemma lookup_same_length {A B : Type} (l : list A) (k : list B) (i : nat)
  (y : B) :
  length k = length l -> k !! i = Some y -> exists x, l !! i = Some x.
Proof.
  intros Hlen Hi. apply lookup_lt_is_Some. apply lookup_lt_Some in Hi. lia.
Qed.

Lemma settles_no_empty_id (captured : list UploadedImage)
  (analysis : Js.result (list Segment)) (st : AppState) :
  no_empty_id st ->
  captured `prefix_of` images st ->
  (forall fresh, analysis = Js.Return fresh ->
     forall i seg, fresh !! i = Some seg -> assignedImageId seg = None) ->
  no_empty_id (audio_analysis_settles captured analysis st).
Proof.
  intros [Hids Hsegs] [later Hlater] Hfresh.
  unfold audio_analysis_settles.
  destruct analysis as [fresh|e]; cbn [Js.bind]; [|split; assumption].
  specialize (Hfresh fresh eq_refl).
  destruct (Nat.eq_dec (length captured) 0) as [Hz|Hnz].
  - rewrite (matchImagesToSegments_empty fresh captured Hz).
    split; [exact Hids|]. cbn. intros i seg Hi.
    rewrite (Hfresh i seg Hi). discriminate.
  - destruct (matchImagesToSegments_nonempty fresh captured)
      as (out & Hout & Hlen & Hall); [lia|].
    rewrite Hout. split; [exact Hids|]. cbn. intros i seg' Hi.
    destruct (lookup_same_length fresh out i seg' Hlen Hi) as (seg & Hseg).
    destruct (Hall i seg Hseg) as (img & Himg & Hi').
    assert (seg' = with_assignedImageId (Some (img_id img)) seg)
      as -> by congruence.
    cbn. intros Heq. injection Heq as Heq.
    apply (Hids img); [|exact Heq].
    rewrite Hlater. apply elem_of_app. left.
    eapply list_elem_of_lookup_2. exact Himg.
Qed.

Lemma upload_no_empty_id (files : option (list Pick)) (st st' : AppState) :
  no_empty_id st -> handleImageUpload files st = Js.Return st' ->
  no_empty_id st'.
Proof.
  intros [Hids Hsegs] Hst'.
  destruct files as [picks|]; [|injection Hst' as <-; split; assumption].
  destruct (handleImageUpload_inv picks st st' Hst') as [Himgs Hfill].
  assert (Hids' : ids_present (images st')).
  { rewrite Himgs. intros img Hin. apply elem_of_app in Hin as [Hin|Hin].
    - exact (Hids img Hin).
    - apply list_elem_of_In, in_map_iff in Hin as (p & <- & _).
      unfold new_image, image_id. cbn. discriminate. }
  split; [exact Hids'|].
  destruct Hfill as [[Hsame _]|Hfill]; [rewrite Hsame; exact Hsegs|].
  destruct (fill_unassigned_inv _ _ _ Hfill) as [Hlen Hall].
  intros i seg' Hi.
  destruct (lookup_same_length _ _ i seg' Hlen Hi) as (seg & Hseg).
  specialize (Hall i seg Hseg).
  destruct (Js.falsy (assignedImageId seg)).
  - destruct Hall as (img & Himg & Hi').
    assert (seg' = with_assignedImageId (Some (img_id img)) seg)
      as -> by congruence.
    cbn. intros Heq. injection Heq as Heq.
    apply (Hids' img); [|exact Heq].
    eapply list_elem_of_lookup_2. exact Himg.
  - assert (seg' = seg) as -> by congruence. exact (Hsegs i seg Hseg).
Qed.

Lemma drop_no_empty_id (segmentId imageId : string) (st : AppState) :
  no_empty_id st ->
  no_empty_id (handleDrop assignImageToSegment segmentId imageId st).
Proof.
  intros [Hids Hsegs]. unfold handleDrop.
  destruct (String.eqb_spec imageId "") as [|Hne]; [split; assumption|].
  split; [exact Hids|]. intros i seg' Hi.
  rewrite assign_segments, lookup_map in Hi.
  destruct (segments (project st) !! i) as [seg|] eqn:Hseg;
    [|discriminate Hi].
  cbn in Hi. injection Hi as <-.
  destruct (String.eqb (id seg) segmentId).
  - cbn. congruence.
  - exact (Hsegs i seg Hseg).
Qed.

(** In every state the application reaches, no image id is the empty
    string: an id on a segment is there, or is not there at all. *)
Lemma reachable_no_empty_id (st : AppState) : reachable st -> no_empty_id st.
Proof.
  induction 1 as [|st file url _ [Hids _]|st d _ IH|st captured now reply _ IH
                  Hprefix|st files st' _ IH Hst'|st segmentId imageId _ IH
                  |st playing t _ IH].
  - split.
    + intros img Hin. inversion Hin.
    + intros i seg Hi. destruct i; discriminate Hi.
  - split; [exact Hids|]. intros i seg Hi. destruct i; discriminate Hi.
  - exact IH.
  - apply (settles_no_empty_id captured _ st IH Hprefix).
    intros fresh Hfresh i seg Hi. destruct reply as [rawData|];
      [|discriminate Hfresh].
    destruct (analyzed_segments_unassigned now rawData)
      as (fresh' & Hf & _ & Hnone).
    assert (fresh' = fresh) as -> by congruence.
    exact (Hnone i seg Hi).
  - exact (upload_no_empty_id files st st' IH Hst').
  - exact (drop_no_empty_id segmentId imageId st IH).
  - exact IH.
Qed.

(** C3: in whatever order analyses complete, images are added and images
    are dropped on segments, a segment that has an [assignedImageId] keeps
    exactly that assignment through an auto-fill pass.  An upload of images
    (trigger A) returns every such segment as it is, so an image dropped on a
    segment is still there after a later upload.  The pass of a completing
    analysis (trigger B) runs over the segments the analysis has just
    created, none of which has an assignment, and what it returns becomes the
    segment list. *)
Theorem autofill_keeps_assignments :
  (forall st, reachable st ->
     forall files st',
       handleImageUpload files st = Js.Return st' ->
       forall i seg x,
         segments (project st) !! i = Some seg ->
         assignedImageId seg = Some x ->
         segments (project st') !! i = Some seg)
  /\ (forall files st st',
        handleImageUpload files st = Js.Return st' ->
        forall i seg x,
          segments (project st) !! i = Some seg ->
          assignedImageId seg = Some x -> x <> "" ->
          segments (project st') !! i = Some seg)
  /\ (forall segmentId imageId files st st' i seg,
        imageId <> "" ->
        segments (project st) !! i = Some seg ->
        id seg = segmentId ->
        handleImageUpload files
          (handleDrop assignImageToSegment segmentId imageId st)
        = Js.Return st' ->
        segments (project st') !! i
        = Some (with_assignedImageId (Some imageId) seg))
  /\ (forall captured now rawData st,
        exists fresh out,
          analyzeAudioAndSegment now (reply_items rawData) = Js.Return fresh
          /\ (forall i seg, fresh !! i = Some seg ->
                assignedImageId seg = None)
          /\ matchImagesToSegments fresh captured = Js.Return out
          /\ segments (project (audio_analysis_settles captured
                                  (Js.Return fresh) st)) = out).
Proof.
  assert (Hset : forall x, x <> "" -> Js.falsy (Some x) = false).
  { intros x Hne. simpl. destruct (String.eqb_spec x ""); congruence. }
  assert (Hkeep : forall files st st',
            handleImageUpload files st = Js.Return st' ->
            forall i seg x,
              segments (project st) !! i = Some seg ->
              assignedImageId seg = Some x -> x <> "" ->
              segments (project st') !! i = Some seg).
  { intros files st st' Hst' i seg x Hi Hx Hne.
    apply (handleImageUpload_keeps_assigned files st st' Hst' i seg Hi).
    rewrite Hx. exact (Hset x Hne). }
  split; [|split; [exact Hkeep|split]].
  - intros st Hreach files st' Hst' i seg x Hi Hx.
    apply (Hkeep files st st' Hst' i seg x Hi Hx).
    intros ->. destruct (reachable_no_empty_id st Hreach) as [_ Hsegs].
    exact (Hsegs i seg Hi Hx).
  - intros segmentId imageId files st st' i seg Hne Hi Hid Hst'.
    apply (handleImageUpload_keeps_assigned files _ st' Hst' i).
    + unfold handleDrop.
      destruct (String.eqb_spec imageId "") as [Heq|_]; [congruence|].
      rewrite assign_segments, lookup_map, Hi. simpl.
      rewrite Hid, String.eqb_refl. reflexivity.
    + exact (Hset imageId Hne).
  - intros captured now rawData st.
    destruct (analyzed_segments_unassigned now rawData)
      as (fresh & Hf & _ & Hnone).
    destruct (Nat.eq_dec (length captured) 0) as [Hz|Hnz].
    + exists fresh, fresh. split; [exact Hf|]. split; [exact Hnone|].
      pose proof (matchImagesToSegments_empty fresh captured Hz) as Hout.
      split; [exact Hout|].
      unfold audio_analysis_settles. cbn [Js.bind]. rewrite Hout. reflexivity.
    + destruct (matchImagesToSegments_nonempty fresh captured)
        as (out & Hout & _ & _); [lia|].
      exists fresh, out. split; [exact Hf|]. split; [exact Hnone|].
      split; [exact Hout|].
      unfold audio_analysis_settles. cbn [Js.bind]. rewrite Hout. reflexivity.
Qed.

(** C3 at the sample data: in the state reached by dropping an image on the
    first of three fresh segments, that segment keeps it when two images are
    uploaded, while its neighbours are filled. *)
Lemma autofill_keeps_assignments_witness :
  exists st',
    handleImageUpload (Some [pick_sunrise; pick_harbour])
      (handleDrop assignImageToSegment (segment_id 0 1700000000000)
         "img-manual"
         (handleAudioUpload (Some (narration_mp3, "blob:narration"))
            (Some 18%float) (fun _ => 1700000000000%N)
            (reply_items three_items) initial_state)) = Js.Return st'
    /\ map assignedImageId (segments (project st'))
       = [Some "img-manual"; Some (img_id (new_image pick_harbour));
          Some (img_id (new_image pick_sunrise))]
    /\ segments (project st') !! 0
       = Some (narration 0 0 6 "a" (Some "img-manual")).
Proof.
  eexists. split; [vm_compute; reflexivity|].
  split; [vm_compute; reflexivity|].
  refine (proj1 autofill_keeps_assignments
            (handleDrop assignImageToSegment (segment_id 0 1700000000000)
               "img-manual"
               (handleAudioUpload (Some (narration_mp3, "blob:narration"))
                  (Some 18%float) (fun _ => 1700000000000%N)
                  (reply_items three_items) initial_state))
            _ (Some [pick_sunrise; pick_harbour]) _ _ 0
            (narration 0 0 6 "a" (Some "img-manual")) "img-manual" _ _).
  - apply reachable_drop.
    apply (reachable_settles _ [] (fun _ => 1700000000000%N)
             (reply_items three_items)).
    + apply reachable_metadata, reachable_audio_begins, reachable_initial.
    + exists []. reflexivity.
  - vm_compute. reflexivity.
  - vm_compute. reflexivity.
  - reflexivity.
Defined.

(** ** handleAudioUpload when the analysis fails *)

(** C2, as the code has it: when the analysis rejects, the status becomes
    [error] with a non-empty message, the error's or ["Analysis failed."],
    and handling the rejection changes nothing else: the project, segment
    list included, and the gallery are what they were just before it was
    handled, whatever happened since the upload began.  In an upload with no
    other event in between that list is empty, because the upload has reset
    it. *)
Theorem analysis_failure_reports_error :
  (forall captured e st,
     let st' := audio_analysis_settles captured (Js.Throw e) st in
     status (processing st') = error
     /\ message (processing st')
        = (if String.eqb (Js.err_message e) "" then "Analysis failed."
           else Js.err_message e)
     /\ message (processing st') <> ""
     /\ project st' = project st
     /\ images st' = images st)
  /\ (forall file url d now st,
        let st' := handleAudioUpload (Some (file, url)) (Some d) now
                     reply_throws st in
        status (processing st') = error
        /\ message (processing st') = Js.err_message analysis_error
        /\ segments (project st')
           = segments (project (audio_metadata_loads d
                                  (audio_upload_begins file url st)))
        /\ segments (project st') = []
        /\ images st' = images st).
Proof.
  split.
  - intros captured e st st'. subst st'. simpl.
    repeat split. unfold Js.or_else.
    destruct (String.eqb_spec (Js.err_message e) ""); [discriminate|assumption].
  - intros file url d now st st'. subst st'. simpl. repeat split.
Qed.

(** C2 at the sample data: a first upload begins, a second begins and its
    analysis resolves with three segments, then the first one's analysis
    rejects: the status is [error] and the three segments are still there. *)
Lemma analysis_failure_reports_error_witness :
  let before :=
    upload_run [upload_begins first_mp3 "blob:first";
                upload_begins second_mp3 "blob:second";
                upload_metadata 18%float;
                upload_resolves [] (fun _ => 1700000000000%N) three_items]
      initial_state in
  let after := audio_analysis_settles [] (Js.Throw analysis_error) before in
  (status (processing after) = error
   /\ message (processing after)
      = (if String.eqb (Js.err_message analysis_error) ""
         then "Analysis failed." else Js.err_message analysis_error)
   /\ message (processing after) <> ""
   /\ project after = project before
   /\ images after = images before)
  /\ length (segments (project after)) = 3.
Proof.
  split; [|reflexivity].
  apply (proj1 analysis_failure_reports_error [] analysis_error).
Defined.

(** C2 as stated fails when segments of an earlier upload exist: they are
    gone after the failed upload. *)
Lemma failed_upload_discards_prior_segments :
  ~ (forall file url d now st,
       segments (project (handleAudioUpload (Some (file, url)) (Some d) now
                            reply_throws st))
       = segments (project st)).
Proof.
  intros H.
  specialize (H narration_mp3 "blob:narration" 12%float (fun _ => 1700000000000%N)
                (with_project_segments three_unassigned initial_state)).
  vm_compute in H. discriminate H.
Qed.

(** ** The gallery *)

Lemma pretty_N_go_dash_free (x : N) :
  forall s, dash_free s -> dash_free (pretty_N_go x s).
Proof.
  induction (N.lt_wf_0 x) as [x _ IH]; intros s Hs.
  destruct (N.eq_dec x 0%N) as [->|Hx].
  - rewrite pretty_N_go_0. exact Hs.
  - rewrite pretty_N_go_step by lia. apply IH.
    + apply N.div_lt; lia.
    + split; [|exact Hs].
      unfold pretty_N_char. repeat case_match; discriminate.
Qed.

Lemma pretty_N_dash_free (n : N) : dash_free (pretty n).
Proof.
  unfold pretty, pretty_N. case_decide.
  - simpl. split; [discriminate|exact I].
  - apply pretty_N_go_dash_free. exact I.
Qed.

Lemma dash_free_prefix (a b r r' : string) :
  dash_free a -> dash_free b ->
  a +:+ String "-" r = b +:+ String "-" r' -> a = b /\ r = r'.
Proof.
  revert b. induction a as [|c a IH]; intros [|c' b] Ha Hb H; simpl in *.
  - injection H as ->. split; reflexivity.
  - injection H as <- _. destruct Hb as [Hb _]. congruence.
  - injection H as -> _. destruct Ha as [Ha _]. congruence.
  - injection H as -> H. destruct Ha as [_ Ha], Hb as [_ Hb].
    destruct (IH b Ha Hb H) as [-> ->]. split; reflexivity.
Qed.

Lemma image_id_inj (n n' : N) (r r' : string) :
  image_id n r = image_id n' r' -> n = n' /\ r = r'.
Proof.
  unfold image_id. intros H.
  change ("img-" +:+ pretty n +:+ "-" +:+ r)
    with ("img-" +:+ (pretty n +:+ String "-" r)) in H.
  change ("img-" +:+ pretty n' +:+ "-" +:+ r')
    with ("img-" +:+ (pretty n' +:+ String "-" r')) in H.
  simpl in H. injection H as H.
  apply dash_free_prefix in H as [Hn Hr]; try apply pretty_N_dash_free.
  split; [|exact Hr]. apply (inj pretty). exact Hn.
Qed.

Lemma new_image_ids (picks : list Pick) :
  NoDup (map draw picks) -> NoDup (map img_id (map new_image picks)).
Proof.
  induction picks as [|p picks IH]; simpl; intros Hnd.
  - constructor.
  - apply NoDup_cons in Hnd as [Hp Hnd]. apply NoDup_cons. split; [|auto].
    intros Hin. apply Hp. clear - Hin.
    induction picks as [|q picks IH]; simpl in *.
    + inversion Hin.
    + apply elem_of_cons in Hin as [Heq|Hin].
      * apply image_id_inj in Heq as [Hn Hr].
        apply elem_of_cons. left. unfold draw. congruence.
      * apply elem_of_cons. right. auto.
Qed.

(** C9, as the code has it: an upload of at least one file succeeds, appends
    the new images to the gallery in input order and keeps the earlier ones;
    an id is built from the clock value and the random suffix drawn for the
    file, two ids are equal only if both coincide, so the ids of the gallery
    stay distinct whenever the draws of the new files are pairwise distinct
    and none of the new ids is in the gallery already. *)
Theorem handleImageUpload_appends :
  (forall picks st, picks <> [] ->
     exists st', handleImageUpload (Some picks) st = Js.Return st')
  /\ (forall picks st st',
     handleImageUpload (Some picks) st = Js.Return st' ->
     images st' = images st ++ map new_image picks)
  /\ (forall n r n' r', image_id n r = image_id n' r' -> n = n' /\ r = r')
  /\ (forall picks st st',
        handleImageUpload (Some picks) st = Js.Return st' ->
        NoDup (map img_id (images st)) ->
        NoDup (map draw picks) ->
        (forall p, p ∈ picks -> img_id (new_image p) ∉ map img_id (images st)) ->
        NoDup (map img_id (images st'))).
Proof.
  split; [|split; [|split]].
  - intros picks st Hne. unfold handleImageUpload.
    destruct (Nat.ltb 0 (length (segments (project st))));
      [|eexists; reflexivity].
    destruct (fill_unassigned_total (images st ++ map new_image picks)
                (segments (project st))) as (out & ->).
    + rewrite length_app, length_map. destruct picks; [congruence|simpl; lia].
    + simpl. eexists. reflexivity.
  - intros picks st st' H. apply (handleImageUpload_inv picks st st' H).
  - intros n r n' r'. apply image_id_inj.
  - intros picks st st' H Hold Hdraws Hfresh.
    destruct (handleImageUpload_inv picks st st' H) as [-> _].
    rewrite map_app. apply NoDup_app. split; [exact Hold|].
    split; [|apply new_image_ids; exact Hdraws].
    intros x Hx Hnew.
    apply list_elem_of_In, in_map_iff in Hnew as (img & <- & Himg).
    apply in_map_iff in Himg as (p & <- & Hp).
    apply list_elem_of_In in Hp. exact (Hfresh p Hp Hx).
Qed.

(** C9 at the sample data: two files uploaded together at the same clock
    value with different suffixes get different ids. *)
Lemma handleImageUpload_appends_witness :
  exists st',
    handleImageUpload (Some [pick_sunrise; pick_harbour]) initial_state
    = Js.Return st'
    /\ NoDup (map img_id (images st')).
Proof.
  eexists. split; [vm_compute; reflexivity|].
  apply (proj2 (proj2 (proj2 handleImageUpload_appends))
           [pick_sunrise; pick_harbour] initial_state).
  - vm_compute. reflexivity.
  - constructor.
  - apply (bool_decide_unpack _). vm_compute. exact I.
  - intros p _ Hin. inversion Hin.
Defined.

(** C9 as stated fails: two files that draw the same clock value and the
    same random suffix get the same id. *)
Lemma image_ids_can_collide :
  ~ (forall picks st st',
       handleImageUpload (Some picks) st = Js.Return st' ->
       NoDup (map img_id (images st)) ->
       NoDup (map img_id (images st'))).
Proof.
  intros H.
  specialize (H [pick_sunrise; pick_dusk] initial_state _ eq_refl).
  specialize (H ltac:(constructor)).
  apply NoDup_cons in H as [Hin _]. apply Hin. left.
Qed.

(** ** The timeline *)

Local Open Scope float_scope.

Lemma Math_min_one (q : float) :
  Js.Math_min 1 q
  = if is_nan q then nan else if 1 <=? q then 1 else q.
Proof.
  unfold Js.Math_min. change (is_nan 1) with false. cbn [orb].
  destruct (is_nan q) eqn:Hnan; [reflexivity|].
  destruct (1 <=? q) eqn:Hle.
  - destruct (1 <? q) eqn:Hlt; [reflexivity|].
    rewrite (float_le_one_eq q Hle Hlt). reflexivity.
  - rewrite (float_le_not_lt q 1
               (float_lt_le _ _ (float_not_le_lt 1 q eq_refl Hnan Hle))).
    rewrite (float_not_le_lt 1 q eq_refl Hnan Hle). reflexivity.
Qed.

Lemma Math_max_zero (q : float) :
  Js.Math_max 0 q
  = if is_nan q then nan else if q <=? 0 then 0 else q.
Proof.
  unfold Js.Math_max. change (is_nan 0) with false. cbn [orb].
  destruct (is_nan q) eqn:Hnan; [reflexivity|].
  destruct (q <=? 0) eqn:Hle.
  - rewrite (float_le_not_lt q 0 Hle).
    destruct (q <? 0); reflexivity.
  - rewrite (float_not_le_lt q 0 Hnan eq_refl Hle). reflexivity.
Qed.

(** [Math.max(0, Math.min(1, q))] is [clamp(q, 0, 1)], whatever [q] is. *)
Lemma clamp_unit (q : float) :
  Js.Math_max 0 (Js.Math_min 1 q) = clamp q 0 1.
Proof.
  rewrite Math_min_one, Math_max_zero. unfold clamp.
  destruct (is_nan q) eqn:Hnan.
  - rewrite (float_nan_eq q Hnan). reflexivity.
  - destruct (1 <=? q) eqn:H1.
    + change (is_nan 1) with false. change (1 <=? 0) with false. cbv iota.
      assert (Hq0 : (q <=? 0) = false).
      { destruct (q <=? 0) eqn:Hq0; [|reflexivity].
        pose proof (float_le_trans _ _ _ H1 Hq0) as H. discriminate H. }
      rewrite Hq0. reflexivity.
    + rewrite Hnan. destruct (q <=? 0); reflexivity.
Qed.

(** C10: with a duration of zero the click returns before the callback: the
    owner's state, playback position included, is what it was, whatever the
    callback would have done. *)
Theorem click_without_duration_is_ignored {S : Type}
  (onSeek : float -> S -> S) (container : option DOMRect)
  (duration clientX : float) (s : S) :
  Js.strict_eq duration 0 = true ->
  handleTimelineClick onSeek container duration clientX s = s.
Proof.
  intros Hzero. unfold handleTimelineClick.
  destruct container; [rewrite Hzero|]; reflexivity.
Qed.

(** C10 at a sample click: the log of seek calls stays empty. *)
Lemma click_without_duration_is_ignored_witness :
  handleTimelineClick (fun t log => t :: log) (Some (mkDOMRect 100 800))
    0 500 [] = [].
Proof.
  apply (click_without_duration_is_ignored
           (fun t log => t :: log) (Some (mkDOMRect 100 800)) 0 500 []).
  reflexivity.
Defined.

(** C8: on a track with a duration other than zero a click seeks to
    [clamp(offset / width, 0, 1) * duration], the offset being
    [clientX - rect.left]; on a 40-second track a click at half of a
    positive finite width seeks to exactly 20. *)
Theorem click_seeks_to_fraction {S : Type} (onSeek : float -> S -> S)
  (rect : DOMRect) (clientX : float) (s : S) :
  (forall duration,
     Js.strict_eq duration 0 = false ->
     handleTimelineClick onSeek (Some rect) duration clientX s
     = onSeek (clamp ((clientX - rect_left rect) / rect_width rect) 0 1
               * duration) s)
  /\ ((0 <? rect_width rect) = true ->
      (rect_width rect <? infinity) = true ->
      rect_width rect = 2 * (clientX - rect_left rect) ->
      handleTimelineClick onSeek (Some rect) 40 clientX s = onSeek 20 s).
Proof.
  assert (Hgen : forall duration,
            Js.strict_eq duration 0 = false ->
            handleTimelineClick onSeek (Some rect) duration clientX s
            = onSeek (clamp ((clientX - rect_left rect) / rect_width rect) 0 1
                      * duration) s).
  { intros duration Hnz. unfold handleTimelineClick. rewrite Hnz.
    cbv zeta. rewrite clamp_unit. reflexivity. }
  split; [exact Hgen|].
  intros Hpos Hfin Hhalf.
  rewrite (Hgen 40 eq_refl), Hhalf.
  rewrite Hhalf in Hpos, Hfin.
  rewrite (float_half_of_double _ Hpos Hfin). reflexivity.
Qed.

(** C8 at a sample click: a track 800 wide that starts at 100, clicked at
    500. *)
Lemma click_seeks_to_fraction_witness :
  handleTimelineClick (fun t log => t :: log) (Some (mkDOMRect 100 800))
    40 500 [] = [20].
Proof.
  apply (proj2 (click_seeks_to_fraction (fun t log => t :: log)
                  (mkDOMRect 100 800) 500 [])); reflexivity.
Defined.

(** ** The theorems at the sample data *)

(** C1 at the sample data: at 7 seconds the second of three back-to-back
    segments is the active one. *)
Lemma currentSegment_first_active_witness :
  currentSegment three_unassigned 7 = Some (narration 1 6 12 "b" None).
Proof.
  apply (proj2 (currentSegment_first_active three_unassigned 7) eq_refl
           1%nat 1%nat (narration 1 6 12 "b" None) (narration 1 6 12 "b" None)
           eq_refl (conj eq_refl eq_refl) eq_refl (conj eq_refl eq_refl)).
Defined.


(** C6 at the sample data: an id that is in no gallery is stored on the
    second segment, and only there. *)
Lemma assignImageToSegment_spec_witness :
  segments (project (assignImageToSegment (segment_id 1 1700000000000)
                       "img-gone"
                       (with_project_segments three_unassigned initial_state)))
  = <[1%nat := with_assignedImageId (Some "img-gone")
                 (narration 1 6 12 "b" None)]> three_unassigned.
Proof.
  destruct (assignImageToSegment_spec (segment_id 1 1700000000000) "img-gone"
              (with_project_segments three_unassigned initial_state))
    as (_ & _ & _ & _ & _ & _ & _ & _ & _ & Hone & _).
  apply (Hone 1%nat (narration 1 6 12 "b" None)).
  - apply (bool_decide_unpack _). vm_compute. exact I.
  - reflexivity.
  - reflexivity.
Defined.

(** * Further properties of the code *)

Local Close Scope float_scope.

(** ** The analysis result *)

Lemma segment_id_inj (index index' : nat) (now now' : N) :
  segment_id index now = segment_id index' now' ->
  index = index' /\ now = now'.
Proof.
  unfold segment_id. intros H.
  change ("seg-" +:+ pretty index +:+ "-" +:+ pretty now)
    with ("seg-" +:+ (pretty (N.of_nat index) +:+ String "-" (pretty now))) in H.
  change ("seg-" +:+ pretty index' +:+ "-" +:+ pretty now')
    with ("seg-" +:+ (pretty (N.of_nat index')
                       +:+ String "-" (pretty now'))) in H.
  simpl in H. injection H as H.
  apply dash_free_prefix in H as [Hi Hn]; try apply pretty_N_dash_free.
  split.
  - apply Nat2N.inj, (inj pretty). exact Hi.
  - apply (inj pretty). exact Hn.
Qed.

(** X1: a reply with [n] items becomes [n] segments in the same order, each
    with the times and text of its item and the id built from its index, and
    no two of them share an id, whatever the clock returned. *)
Theorem analyzeAudioAndSegment_distinct_ids (now : nat -> N)
  (rawData : list RawItem) :
  exists segs,
    analyzeAudioAndSegment now (reply_items rawData) = Js.Return segs
    /\ length segs = length rawData
    /\ NoDup (map id segs)
    /\ forall i item, rawData !! i = Some item ->
         exists seg,
           segs !! i = Some seg
           /\ id seg = segment_id i (now i)
           /\ startTime seg = start_time item
           /\ endTime seg = end_time item
           /\ text seg = raw_text item
           /\ visualPrompt seg = visual_description item
           /\ emotion seg = raw_emotion item.
Proof.
  simpl. eexists. split; [reflexivity|]. split; [apply length_imap|]. split.
  - apply NoDup_alt. intros i j x Hi Hj.
    rewrite lookup_map, list_lookup_imap in Hi, Hj.
    destruct (rawData !! i); [|discriminate Hi].
    destruct (rawData !! j); [|discriminate Hj].
    cbn -[segment_id] in Hi, Hj.
    assert (Heq : segment_id i (now i) = segment_id j (now j)) by congruence.
    apply segment_id_inj in Heq as [Hij _]. exact Hij.
  - intros i item Hi. rewrite list_lookup_imap, Hi. simpl.
    eexists. split; [reflexivity|]. repeat split.
Qed.

(** ** matchImagesToSegments *)

Lemma matchImagesToSegments_returns (segs : list Segment)
  (imgs : list UploadedImage) :
  exists out,
    matchImagesToSegments segs imgs = Js.Return out
    /\ length out = length segs
    /\ forall i seg, segs !! i = Some seg ->
         exists v, out !! i = Some (with_assignedImageId v seg).
Proof.
  destruct (Nat.eq_dec (length imgs) 0) as [Hz|Hnz].
  - exists segs. split; [exact (matchImagesToSegments_empty segs imgs Hz)|].
    split; [reflexivity|]. intros i seg Hi. exists (assignedImageId seg).
    rewrite Hi. destruct seg. reflexivity.
  - destruct (matchImagesToSegments_nonempty segs imgs)
      as (out & Hout & Hlen & Hall); [lia|].
    exists out. split; [exact Hout|]. split; [exact Hlen|].
    intros i seg Hi. destruct (Hall i seg Hi) as (img & _ & Hi').
    eexists. exact Hi'.
Qed.

Lemma unassigned_map_eq (segs out : list Segment) :
  length out = length segs ->
  (forall i seg, segs !! i = Some seg ->
     exists v, out !! i = Some (with_assignedImageId v seg)) ->
  map unassigned out = map unassigned segs.
Proof.
  intros Hlen Hall. apply list_eq. intros i. rewrite !lookup_map.
  destruct (segs !! i) as [seg|] eqn:Hi.
  - destruct (Hall i seg Hi) as (v & ->). reflexivity.
  - apply lookup_ge_None in Hi.
    rewrite (proj2 (lookup_ge_None out i)) by lia. reflexivity.
Qed.

(** X2: [matchImagesToSegments] never throws: for every list of segments and
    every gallery it returns as many segments as it was given, and they
    differ from the given ones in [assignedImageId] at most. *)
Theorem matchImagesToSegments_never_throws (segs : list Segment)
  (imgs : list UploadedImage) :
  exists out,
    matchImagesToSegments segs imgs = Js.Return out
    /\ length out = length segs
    /\ map unassigned out = map unassigned segs.
Proof.
  destruct (matchImagesToSegments_returns segs imgs) as (out & Hout & Hlen & Hall).
  exists out. split; [exact Hout|]. split; [exact Hlen|].
  exact (unassigned_map_eq segs out Hlen Hall).
Qed.

(** X3: matching a second time with the same gallery changes nothing. *)
Theorem matchImagesToSegments_idempotent (segs out : list Segment)
  (imgs : list UploadedImage) :
  matchImagesToSegments segs imgs = Js.Return out ->
  matchImagesToSegments out imgs = Js.Return out.
Proof.
  intros Hout.
  destruct (Nat.eq_dec (length imgs) 0) as [Hz|Hnz].
  - exact (matchImagesToSegments_empty out imgs Hz).
  - destruct (matchImagesToSegments_nonempty segs imgs)
      as (out1 & Hout1 & Hlen1 & Hall1); [lia|].
    assert (out1 = out) as -> by congruence.
    destruct (matchImagesToSegments_nonempty out imgs)
      as (out2 & Hout2 & Hlen2 & Hall2); [lia|].
    rewrite Hout2. f_equal. apply list_eq. intros i.
    destruct (out !! i) as [seg'|] eqn:Hi.
    + destruct (Hall2 i seg' Hi) as (img2 & Himg2 & ->).
      destruct (segs !! i) as [seg|] eqn:Hsi.
      * destruct (Hall1 i seg Hsi) as (img1 & Himg1 & Hi1).
        assert (img1 = img2) as -> by congruence.
        assert (seg' = with_assignedImageId (Some (img_id img2)) seg)
          as -> by congruence.
        reflexivity.
      * apply lookup_ge_None in Hsi. apply lookup_lt_Some in Hi. lia.
    + apply lookup_ge_None in Hi. apply lookup_ge_None. lia.
Qed.

(** X3 at the sample data. *)
Lemma matchImagesToSegments_idempotent_witness :
  exists out,
    matchImagesToSegments three_unassigned [new_image pick_sunrise]
    = Js.Return out
    /\ matchImagesToSegments out [new_image pick_sunrise] = Js.Return out.
Proof.
  eexists. split; [vm_compute; reflexivity|].
  apply (matchImagesToSegments_idempotent three_unassigned).
  vm_compute. reflexivity.
Defined.

(** X4: with a non-empty gallery every segment returned refers to an image
    of that gallery, and when there are at least as many segments as images
    every image is referred to by some segment. *)
Theorem matchImagesToSegments_uses_gallery (segs out : list Segment)
  (imgs : list UploadedImage) :
  matchImagesToSegments segs imgs = Js.Return out ->
  imgs <> [] ->
  (forall i seg, out !! i = Some seg ->
     exists img, img ∈ imgs /\ assignedImageId seg = Some (img_id img))
  /\ (length imgs <= length segs ->
      forall img, img ∈ imgs ->
        exists i seg,
          out !! i = Some seg /\ assignedImageId seg = Some (img_id img)).
Proof.
  intros Hout Hne.
  assert (Hpos : 0 < length imgs) by (destruct imgs; [congruence|simpl; lia]).
  destruct (matchImagesToSegments_nonempty segs imgs Hpos)
    as (out1 & Hout1 & Hlen & Hall).
  assert (out1 = out) as -> by congruence.
  split.
  - intros i seg' Hi.
    destruct (segs !! i) as [seg|] eqn:Hsi.
    + destruct (Hall i seg Hsi) as (img & Himg & Hi').
      exists img. split; [eapply list_elem_of_lookup_2; exact Himg|].
      assert (seg' = with_assignedImageId (Some (img_id img)) seg)
        as -> by congruence.
      reflexivity.
    + apply lookup_ge_None in Hsi. apply lookup_lt_Some in Hi. lia.
  - intros Hle img Hin.
    apply list_elem_of_lookup in Hin as (j & Hj).
    assert (Hjlt : j < length imgs) by (eapply lookup_lt_Some; exact Hj).
    destruct (lookup_lt_is_Some_2 segs j) as (seg & Hseg); [lia|].
    destruct (Hall j seg Hseg) as (img' & Himg' & Hi').
    rewrite Nat.mod_small in Himg' by exact Hjlt.
    assert (img' = img) as -> by congruence.
    exists j, (with_assignedImageId (Some (img_id img)) seg).
    split; [exact Hi'|reflexivity].
Qed.

(** X4 at the sample data: three segments, two images. *)
Lemma matchImagesToSegments_uses_gallery_witness :
  exists i seg,
    [narration 0 0 6 "a" (Some (img_id (new_image pick_sunrise)));
     narration 1 6 12 "b" (Some (img_id (new_image pick_harbour)));
     narration 2 12 18 "c" (Some (img_id (new_image pick_sunrise)))] !! i
    = Some seg
    /\ assignedImageId seg = Some (img_id (new_image pick_harbour)).
Proof.
  apply (proj2 (matchImagesToSegments_uses_gallery three_unassigned _
                  [new_image pick_sunrise; new_image pick_harbour]
                  ltac:(vm_compute; reflexivity) ltac:(discriminate))).
  - simpl. lia.
  - apply elem_of_cons. right. apply elem_of_cons. left. reflexivity.
Defined.

(** ** handleImageUpload: the empty gallery, and stability *)

Lemma mapi_from_unchanged {A : Type} (f : nat -> A -> Js.result A)
  (l : list A) :
  forall k,
    (forall i x, l !! i = Some x -> f (k + i) x = Js.Return x) ->
    Js.mapi_from f k l = Js.Return l.
Proof.
  induction l as [|a l IH]; intros k Hf; simpl; [reflexivity|].
  pose proof (Hf 0 a eq_refl) as Ha. rewrite Nat.add_0_r in Ha.
  rewrite Ha. simpl. rewrite IH; [reflexivity|].
  intros i x Hx. replace (S k + i) with (k + S i) by lia.
  exact (Hf (S i) x Hx).
Qed.

Lemma fill_unassigned_all_assigned (updated : list UploadedImage)
  (segs : list Segment) :
  all_assigned segs -> fill_unassigned updated segs = Js.Return segs.
Proof.
  intros Hall. unfold fill_unassigned. apply mapi_from_unchanged.
  intros i seg Hi. simpl. rewrite (Hall i seg Hi). reflexivity.
Qed.

Lemma fill_unassigned_throws_from (segs : list Segment) (k : nat) :
  (exists i seg, segs !! i = Some seg
                 /\ Js.falsy (assignedImageId seg) = true) ->
  Js.mapi_from (fun i seg =>
    if Js.falsy (assignedImageId seg) then
      Js.bind (Js.index ([] : list UploadedImage)
                 (i mod length ([] : list UploadedImage)))
        (fun img => Js.Return (with_assignedImageId (Some (img_id img)) seg))
    else Js.Return seg) k segs = Js.Throw Js.undefined_read.
Proof.
  revert k. induction segs as [|a segs IH]; intros k (i & seg & Hi & Hfalsy).
  - destruct i; discriminate Hi.
  - cbn [Js.mapi_from].
    destruct (Js.falsy (assignedImageId a)) eqn:Ha; [reflexivity|].
    cbn [Js.bind]. rewrite IH; [reflexivity|].
    destruct i as [|i]; simpl in Hi.
    + injection Hi as ->. congruence.
    + exists i, seg. split; assumption.
Qed.

Lemma fill_unassigned_throws (segs : list Segment) :
  (exists i seg, segs !! i = Some seg
                 /\ Js.falsy (assignedImageId seg) = true) ->
  fill_unassigned [] segs = Js.Throw Js.undefined_read.
Proof. apply fill_unassigned_throws_from. Qed.

Lemma all_assigned_dec (segs : list Segment) :
  all_assigned segs
  \/ exists i seg, segs !! i = Some seg
                   /\ Js.falsy (assignedImageId seg) = true.
Proof.
  induction segs as [|a segs [IH|(i & seg & Hi & Hf)]].
  - left. intros i seg Hi. destruct i; discriminate Hi.
  - destruct (Js.falsy (assignedImageId a)) eqn:Ha.
    + right. exists 0, a. split; [reflexivity|exact Ha].
    + left. intros [|i] seg Hi; simpl in Hi.
      * injection Hi as <-. exact Ha.
      * exact (IH i seg Hi).
  - right. exists (S i), seg. split; assumption.
Qed.

(** The one case in which the updater throws, and what it throws. *)
Lemma handleImageUpload_throw_cases (files : option (list Pick))
  (st : AppState) (e : Js.Error) :
  handleImageUpload files st = Js.Throw e
  <-> e = Js.undefined_read
      /\ files = Some []
      /\ images st = []
      /\ exists i seg, segments (project st) !! i = Some seg
                       /\ Js.falsy (assignedImageId seg) = true.
Proof.
  split.
  - destruct files as [picks|]; [|discriminate].
    intros Hthrow.
    destruct (all_assigned_dec (segments (project st))) as [Hall|Hsome].
    { unfold handleImageUpload in Hthrow.
      rewrite (fill_unassigned_all_assigned _ _ Hall) in Hthrow.
      destruct (0 <? length (segments (project st))); discriminate Hthrow. }
    destruct (images st ++ map new_image picks) as [|img rest] eqn:Hupd.
    + apply app_eq_nil in Hupd as [Himgs Hpicks].
      apply map_eq_nil in Hpicks. subst picks.
      unfold handleImageUpload in Hthrow. rewrite Himgs in Hthrow.
      cbn [map app] in Hthrow.
      rewrite (fill_unassigned_throws _ Hsome) in Hthrow.
      destruct (0 <? length (segments (project st)));
        [|discriminate Hthrow].
      cbn [Js.bind] in Hthrow. injection Hthrow as <-. auto.
    + unfold handleImageUpload in Hthrow. rewrite Hupd in Hthrow.
      destruct (fill_unassigned_total (img :: rest) (segments (project st)))
        as (out & Hout); [simpl; lia|].
      rewrite Hout in Hthrow.
      destruct (0 <? length (segments (project st))); discriminate Hthrow.
  - intros (-> & -> & Himgs & Hsome).
    unfold handleImageUpload. rewrite Himgs. cbn [map app].
    destruct Hsome as (i & seg & Hi & Hf).
    assert (Hpos : (0 <? length (segments (project st))) = true).
    { apply Nat.ltb_lt. apply lookup_lt_Some in Hi. lia. }
    rewrite Hpos. rewrite fill_unassigned_throws; [reflexivity|].
    exists i, seg. split; assumption.
Qed.

(** X5: the state update of an image upload throws in one case only: the
    file list is empty, the gallery is empty, and some segment has no image,
    so that the updater reads [.id] of [updated[i % 0]].  In every other
    case the update goes through. *)
Theorem handleImageUpload_throws_iff (files : option (list Pick))
  (st : AppState) :
  (exists e, handleImageUpload files st = Js.Throw e)
  <-> files = Some []
      /\ images st = []
      /\ exists i seg, segments (project st) !! i = Some seg
                       /\ Js.falsy (assignedImageId seg) = true.
Proof.
  split.
  - intros (e & He). apply handleImageUpload_throw_cases in He.
    destruct He as (_ & Hfiles & Himgs & Hsome). auto.
  - intros (Hfiles & Himgs & Hsome). exists Js.undefined_read.
    apply handleImageUpload_throw_cases. auto.
Qed.

(** X5 at the sample data: an empty file list, no image yet, three segments
    without image. *)
Lemma handleImageUpload_throws_iff_witness :
  exists e,
    handleImageUpload (Some [])
      (with_project_segments three_unassigned initial_state) = Js.Throw e.
Proof.
  apply (proj2 (handleImageUpload_throws_iff (Some [])
                  (with_project_segments three_unassigned initial_state))).
  split; [reflexivity|]. split; [reflexivity|].
  exists 0, (narration 0 0 6 "a" None). split; reflexivity.
Defined.

Lemma image_id_present (now : N) (random : string) : image_id now random <> "".
Proof. unfold image_id. discriminate. Qed.

(** X6: after an upload that returns, no image of the gallery has the empty
    id, provided none had before, and every segment has an image: the one it
    had, or one of the gallery. *)
Theorem handleImageUpload_assigns_every_segment (picks : list Pick)
  (st st' : AppState) :
  handleImageUpload (Some picks) st = Js.Return st' ->
  ids_present (images st) ->
  ids_present (images st')
  /\ all_assigned (segments (project st'))
  /\ forall i seg, segments (project st) !! i = Some seg ->
       segments (project st') !! i = Some seg
       \/ exists img, img ∈ images st'
            /\ segments (project st') !! i
               = Some (with_assignedImageId (Some (img_id img)) seg).
Proof.
  intros Hst' Hids.
  destruct (handleImageUpload_inv picks st st' Hst') as [Himgs Hsegs].
  assert (Hids' : ids_present (images st')).
  { rewrite Himgs. intros img Hin. apply elem_of_app in Hin as [Hin|Hin].
    - exact (Hids img Hin).
    - apply list_elem_of_In, in_map_iff in Hin as (p & <- & _).
      apply image_id_present. }
  split; [exact Hids'|].
  destruct Hsegs as [[Hsame Hnil]|Hfill].
  - rewrite Hsame, Hnil. split.
    + intros i seg Hi. destruct i; discriminate Hi.
    + intros i seg Hi. destruct i; discriminate Hi.
  - destruct (fill_unassigned_inv _ _ _ Hfill) as [Hlen Hall].
    split.
    + intros i seg' Hi.
      destruct (segments (project st) !! i) as [seg|] eqn:Hsi.
      * specialize (Hall i seg Hsi).
        destruct (Js.falsy (assignedImageId seg)) eqn:Hf.
        -- destruct Hall as (img & Himg & Hi').
           assert (seg' = with_assignedImageId (Some (img_id img)) seg)
             as -> by congruence.
           simpl. apply String.eqb_neq, Hids'.
           eapply list_elem_of_lookup_2. exact Himg.
        -- assert (seg' = seg) as -> by congruence. exact Hf.
      * apply lookup_ge_None in Hsi. apply lookup_lt_Some in Hi. lia.
    + intros i seg Hi. specialize (Hall i seg Hi).
      destruct (Js.falsy (assignedImageId seg)).
      * destruct Hall as (img & Himg & Hi'). right. exists img.
        split; [eapply list_elem_of_lookup_2; exact Himg|exact Hi'].
      * left. exact Hall.
Qed.

(** X6 at the sample data. *)
Lemma handleImageUpload_assigns_every_segment_witness :
  exists st',
    handleImageUpload (Some [pick_sunrise])
      (with_project_segments three_unassigned initial_state) = Js.Return st'
    /\ all_assigned (segments (project st')).
Proof.
  eexists. split; [vm_compute; reflexivity|].
  apply (handleImageUpload_assigns_every_segment [pick_sunrise]
           (with_project_segments three_unassigned initial_state)).
  - vm_compute. reflexivity.
  - intros img Hin. inversion Hin.
Defined.

(** X7: once every segment has an image, an upload, even of no file at all,
    returns, adds its images to the gallery and leaves the segments as they
    are. *)
Theorem handleImageUpload_stable (picks : list Pick) (st : AppState) :
  all_assigned (segments (project st)) ->
  exists st',
    handleImageUpload (Some picks) st = Js.Return st'
    /\ images st' = images st ++ map new_image picks
    /\ segments (project st') = segments (project st).
Proof.
  intros Hall. unfold handleImageUpload.
  rewrite (fill_unassigned_all_assigned _ _ Hall).
  destruct (0 <? length (segments (project st)));
    eexists; (split; [reflexivity|]); split; reflexivity.
Qed.

(** X7 at the sample data: a segment that already has an image. *)
Lemma handleImageUpload_stable_witness :
  exists st',
    handleImageUpload (Some [pick_harbour])
      (with_project_segments [narration 0 0 6 "a" (Some "img-manual")]
         initial_state) = Js.Return st'
    /\ segments (project st') = [narration 0 0 6 "a" (Some "img-manual")].
Proof.
  destruct (handleImageUpload_stable [pick_harbour]
              (with_project_segments [narration 0 0 6 "a" (Some "img-manual")]
                 initial_state)) as (st' & Hst' & _ & Hsegs).
  - intros [|i] seg Hi; simpl in Hi; [|destruct i; discriminate Hi].
    injection Hi as <-. reflexivity.
  - exists st'. split; [exact Hst'|exact Hsegs].
Defined.

(** ** Images added while an analysis is pending *)

(** X8: images uploaded between the start of an audio upload and the end of
    its analysis join the gallery, but the segments are matched against the
    gallery the upload started with: they are the ones an undisturbed upload
    gives, so with an empty gallery at the start every segment stays without
    an image although the gallery is no longer empty. *)
Theorem images_added_while_analyzing_are_not_used (file : File) (url : string)
  (d : float) (now : nat -> N) (rawData : list RawItem) (picks : list Pick)
  (st : AppState) :
  exists st1,
    handleImageUpload (Some picks) (audio_upload_begins file url st)
    = Js.Return st1
    /\ let st2 :=
         audio_analysis_settles (images st)
           (analyzeAudioAndSegment now (reply_items rawData))
           (audio_metadata_loads d st1) in
       images st2 = images st ++ map new_image picks
       /\ status (processing st2) = ready
       /\ segments (project st2)
          = segments (project (handleAudioUpload (Some (file, url)) (Some d)
                                 now (reply_items rawData) st))
       /\ (images st = [] ->
           forall i seg, segments (project st2) !! i = Some seg ->
             assignedImageId seg = None).
Proof.
  eexists. split; [reflexivity|].
  destruct (analyzed_segments_unassigned now rawData)
    as (fresh & Hf & _ & Hnone).
  destruct (matchImagesToSegments_returns fresh (images st))
    as (out & Hout & _ & _).
  unfold handleAudioUpload, audio_analysis_settles.
  rewrite Hf. cbn [Js.bind]. rewrite Hout. cbn.
  repeat split.
  intros Hempty i seg Hi.
  rewrite Hempty in Hout.
  rewrite (matchImagesToSegments_empty fresh [] eq_refl) in Hout.
  injection Hout as <-. exact (Hnone i seg Hi).
Qed.

(** ** The image on display *)

Lemma find_exists {A : Type} (p : A -> bool) (l : list A) (x : A) :
  x ∈ l -> p x = true -> exists y, List.find p l = Some y /\ p y = true.
Proof.
  intros Hin Hp. pose proof (find_first p l) as Hfind.
  destruct (List.find p l) as [y|].
  - destruct Hfind as (_ & _ & Hy & _). exists y. auto.
  - apply list_elem_of_lookup in Hin as (i & Hi).
    rewrite (Hfind i x Hi) in Hp. discriminate Hp.
Qed.

Lemma id_is_true (v : option string) (img : UploadedImage) :
  id_is v img = true <-> v = Some (img_id img).
Proof.
  destruct v as [w|]; simpl; [|split; discriminate].
  destruct (String.eqb_spec (img_id img) w); split; congruence.
Qed.

(** X9: the image on display, when there is one, is an image of the gallery
    whose non-empty id is the one assigned to the active segment; there is
    none exactly when no segment is active, or the active one has no image,
    or no image of the gallery has the assigned id. *)
Theorem currentDisplayImage_sound (st : AppState) :
  match currentDisplayImage st with
  | Some img =>
      img ∈ images st
      /\ img_id img <> ""
      /\ exists seg,
           currentSegment (segments (project st)) (currentTime st) = Some seg
           /\ assignedImageId seg = Some (img_id img)
  | None =>
      currentSegment (segments (project st)) (currentTime st) = None
      \/ exists seg,
           currentSegment (segments (project st)) (currentTime st) = Some seg
           /\ (Js.falsy (assignedImageId seg) = true
               \/ forall img, img ∈ images st ->
                    assignedImageId seg <> Some (img_id img))
  end.
Proof.
  unfold currentDisplayImage.
  destruct (currentSegment (segments (project st)) (currentTime st))
    as [seg|]; [|left; reflexivity].
  destruct (Js.falsy (assignedImageId seg)) eqn:Hfalsy.
  { right. exists seg. auto. }
  pose proof (find_first (id_is (assignedImageId seg)) (images st)) as Hfind.
  destruct (List.find (id_is (assignedImageId seg)) (images st)) as [img|].
  - destruct Hfind as (i & Hi & Hp & _). apply id_is_true in Hp.
    split; [eapply list_elem_of_lookup_2; exact Hi|].
    split.
    + rewrite Hp in Hfalsy. simpl in Hfalsy.
      apply String.eqb_neq. exact Hfalsy.
    + exists seg. auto.
  - right. exists seg. split; [reflexivity|]. right.
    intros img Hin Heq. apply list_elem_of_lookup in Hin as (i & Hi).
    apply id_is_true in Heq. rewrite (Hfind i img Hi) in Heq. discriminate Heq.
Qed.

Lemma find_map_invariant {A : Type} (p : A -> bool) (f : A -> A)
  (l : list A) :
  (forall x, p (f x) = p x) ->
  List.find p (map f l) = f <$> List.find p l.
Proof.
  intros Hp. induction l as [|a l IH]; simpl; [reflexivity|].
  rewrite Hp. destruct (p a); [reflexivity|exact IH].
Qed.

(** X10: an image of the gallery assigned to the active segment is the one
    on display next: the display shows an image with the assigned id. *)
Theorem assigned_image_is_displayed (segId imgId : string) (st : AppState)
  (seg : Segment) (img : UploadedImage) :
  currentSegment (segments (project st)) (currentTime st) = Some seg ->
  id seg = segId ->
  img ∈ images st -> img_id img = imgId -> imgId <> "" ->
  exists shown,
    currentDisplayImage (assignImageToSegment segId imgId st) = Some shown
    /\ img_id shown = imgId.
Proof.
  intros Hseg Hid Hin Himg Hne.
  unfold currentDisplayImage. rewrite assign_segments.
  change (currentTime (assignImageToSegment segId imgId st))
    with (currentTime st).
  change (images (assignImageToSegment segId imgId st)) with (images st).
  unfold currentSegment in *.
  rewrite find_map_invariant, Hseg.
  2:{ intros x. destruct (String.eqb (id x) segId); reflexivity. }
  cbn [fmap option_fmap option_map].
  rewrite Hid, String.eqb_refl.
  cbn [assignedImageId with_assignedImageId Js.falsy].
  destruct (String.eqb_spec imgId "") as [|_]; [congruence|].
  destruct (find_exists (id_is (Some imgId)) (images st) img Hin)
    as (shown & Hshown & Hp).
  - apply id_is_true. congruence.
  - exists shown. split; [exact Hshown|].
    apply id_is_true in Hp. congruence.
Qed.

(** X10 at the sample data: at 7 seconds, an image dropped on the second
    segment. *)
Lemma assigned_image_is_displayed_witness :
  exists shown,
    currentDisplayImage
      (assignImageToSegment (segment_id 1 1700000000000) "harbour"
         (mkAppState (mkVideoProject None None 18%float three_unassigned)
            [stored "sunrise"; stored "harbour"]
            (mkProcessingState ready "") false 7%float))
    = Some shown
    /\ img_id shown = "harbour".
Proof.
  apply (assigned_image_is_displayed (segment_id 1 1700000000000) "harbour"
           (mkAppState (mkVideoProject None None 18%float three_unassigned)
              [stored "sunrise"; stored "harbour"]
              (mkProcessingState ready "") false 7%float)
           (narration 1 6 12 "b" None) (stored "harbour")).
  - reflexivity.
  - reflexivity.
  - apply elem_of_cons. right. apply elem_of_cons. left. reflexivity.
  - reflexivity.
  - discriminate.
Defined.

(** ** Assignments compose *)

(** X11: of two assignments to the same segment id the later one wins, and
    assignments to different ids commute; of two drops on the same segment
    the later one wins as well, a drop of the empty id doing nothing. *)
Theorem assignImageToSegment_last_wins :
  (forall segId a b st,
     assignImageToSegment segId b (assignImageToSegment segId a st)
     = assignImageToSegment segId b st)
  /\ (forall segId segId' a b st,
        segId <> segId' ->
        assignImageToSegment segId a (assignImageToSegment segId' b st)
        = assignImageToSegment segId' b (assignImageToSegment segId a st))
  /\ (forall segId a b st,
        b <> "" ->
        handleDrop assignImageToSegment segId b
          (handleDrop assignImageToSegment segId a st)
        = assignImageToSegment segId b st)
  /\ (forall segId st, handleDrop assignImageToSegment segId "" st = st).
Proof.
  assert (Hlast : forall segId a b st,
            assignImageToSegment segId b (assignImageToSegment segId a st)
            = assignImageToSegment segId b st).
  { intros segId a b st.
    unfold assignImageToSegment, setProject, with_segments. simpl.
    f_equal. f_equal. rewrite map_map. apply map_ext. intros seg.
    destruct (String.eqb (id seg) segId) eqn:Heq; simpl; rewrite Heq;
      reflexivity. }
  split; [exact Hlast|]. split; [|split].
  - intros segId segId' a b st Hne.
    unfold assignImageToSegment, setProject, with_segments. simpl.
    f_equal. f_equal. rewrite !map_map. apply map_ext. intros seg.
    destruct (String.eqb_spec (id seg) segId) as [H1|H1];
      destruct (String.eqb_spec (id seg) segId') as [H2|H2]; simpl;
      try (exfalso; congruence);
      repeat match goal with
      | |- context [String.eqb (id seg) ?s] =>
          destruct (String.eqb_spec (id seg) s); try congruence
      end; reflexivity.
  - intros segId a b st Hb. unfold handleDrop.
    destruct (String.eqb_spec b "") as [|_]; [congruence|].
    destruct (String.eqb a ""); [reflexivity|apply Hlast].
  - intros segId st. reflexivity.
Qed.

(** X11 at the sample data: two drops on the second segment. *)
Lemma assignImageToSegment_last_wins_witness :
  map assignedImageId
    (segments (project
       (handleDrop assignImageToSegment (segment_id 1 1700000000000) "harbour"
          (handleDrop assignImageToSegment (segment_id 1 1700000000000)
             "sunrise"
             (with_project_segments three_unassigned initial_state)))))
  = [None; Some "harbour"; None].
Proof.
  rewrite (proj1 (proj2 (proj2 assignImageToSegment_last_wins))
             (segment_id 1 1700000000000) "sunrise" "harbour").
  - vm_compute. reflexivity.
  - discriminate.
Defined.

(** ** Assignments and the active segment *)

Lemma unassigned_same_interval (t : float) (a b : Segment) :
  unassigned a = unassigned b -> in_interval t a = in_interval t b.
Proof.
  intros H. unfold in_interval.
  assert (Hs : startTime a = startTime b)
    by exact (f_equal startTime H).
  assert (He : endTime a = endTime b) by exact (f_equal endTime H).
  rewrite Hs, He. reflexivity.
Qed.

Lemma unassigned_same_active (segs segs' : list Segment) (t : float) :
  map unassigned segs' = map unassigned segs ->
  unassigned <$> currentSegment segs' t = unassigned <$> currentSegment segs t.
Proof.
  revert segs'. induction segs as [|a segs IH]; intros [|a' segs'] H;
    try discriminate H; [reflexivity|].
  cbn [map] in H.
  assert (Ha : unassigned a' = unassigned a) by congruence.
  assert (Hrest : map unassigned segs' = map unassigned segs) by congruence.
  unfold currentSegment in *. simpl.
  rewrite (unassigned_same_interval t a' a Ha).
  destruct (in_interval t a); [simpl; congruence|].
  exact (IH segs' Hrest).
Qed.

Lemma unassigned_same_order (segs segs' : list Segment) :
  map unassigned segs' = map unassigned segs ->
  sorted_non_overlapping segs' = sorted_non_overlapping segs.
Proof.
  revert segs'. induction segs as [|a segs IH]; intros [|a' segs'] H;
    try discriminate H; [reflexivity|].
  cbn [map] in H.
  assert (Ha : unassigned a' = unassigned a) by congruence.
  assert (Hrest : map unassigned segs' = map unassigned segs) by congruence.
  cbn [sorted_non_overlapping]. rewrite (IH segs' Hrest).
  rewrite (f_equal startTime Ha : startTime a' = startTime a).
  rewrite (f_equal endTime Ha : endTime a' = endTime a).
  destruct segs as [|b segs], segs' as [|b' segs']; try discriminate Hrest;
    [reflexivity|].
  cbn [map] in Hrest.
  assert (Hb : unassigned b' = unassigned b) by congruence.
  rewrite (f_equal startTime Hb : startTime b' = startTime b). reflexivity.
Qed.

(** X12: an assignment and an upload of images change nothing of a segment
    but its image: at every time the active segment is the same segment as
    before, and a sorted list of non-overlapping segments stays one. *)
Theorem image_operations_keep_the_timeline :
  (forall segId imgId st,
     let segs' := segments (project (assignImageToSegment segId imgId st)) in
     map unassigned segs' = map unassigned (segments (project st))
     /\ sorted_non_overlapping segs'
        = sorted_non_overlapping (segments (project st))
     /\ forall t, unassigned <$> currentSegment segs' t
                  = unassigned <$> currentSegment (segments (project st)) t)
  /\ (forall files st st',
        handleImageUpload files st = Js.Return st' ->
        map unassigned (segments (project st'))
        = map unassigned (segments (project st))
        /\ sorted_non_overlapping (segments (project st'))
           = sorted_non_overlapping (segments (project st))
        /\ forall t,
             unassigned <$> currentSegment (segments (project st')) t
             = unassigned <$> currentSegment (segments (project st)) t).
Proof.
  assert (Hall : forall segs segs',
            map unassigned segs' = map unassigned segs ->
            map unassigned segs' = map unassigned segs
            /\ sorted_non_overlapping segs' = sorted_non_overlapping segs
            /\ forall t, unassigned <$> currentSegment segs' t
                         = unassigned <$> currentSegment segs t).
  { intros segs segs' H. split; [exact H|].
    split; [exact (unassigned_same_order segs segs' H)|].
    intros t. exact (unassigned_same_active segs segs' t H). }
  split.
  - intros segId imgId st segs'. subst segs'. apply Hall.
    rewrite assign_segments, map_map. apply map_ext. intros seg.
    destruct (String.eqb (id seg) segId); reflexivity.
  - intros files st st' Hst'. apply Hall.
    destruct files as [picks|]; [|injection Hst' as <-; reflexivity].
    destruct (handleImageUpload_inv picks st st' Hst')
      as [_ [[Hsame _]|Hfill]]; [rewrite Hsame; reflexivity|].
    destruct (fill_unassigned_inv _ _ _ Hfill) as [Hlen Hsegs].
    apply (unassigned_map_eq _ _ Hlen).
    intros i seg Hi. specialize (Hsegs i seg Hi).
    destruct (Js.falsy (assignedImageId seg)).
    + destruct Hsegs as (img & _ & Hi'). eexists. exact Hi'.
    + exists (assignedImageId seg). rewrite Hsegs. destruct seg. reflexivity.
Qed.

(** X13: the segment returned as active starts before it ends, and the time
    is a number: a segment whose end is not after its start (or is NaN) is
    never active, and at a NaN position no segment is. *)
Theorem currentSegment_skips_malformed :
  (forall segs t seg,
     currentSegment segs t = Some seg ->
     (startTime seg <? endTime seg)%float = true /\ is_nan t = false)
  /\ (forall segs, currentSegment segs nan = None).
Proof.
  assert (Hsome : forall segs t seg,
            currentSegment segs t = Some seg ->
            (startTime seg <? endTime seg)%float = true /\ is_nan t = false).
  { intros segs t seg Hseg.
    pose proof (find_first (in_interval t) segs) as Hfind.
    fold (currentSegment segs t) in Hfind. rewrite Hseg in Hfind.
    destruct Hfind as (_ & _ & Hp & _).
    apply in_interval_active_at in Hp as [Hle Hlt].
    split; [exact (float_le_lt_trans _ _ _ Hle Hlt)|].
    exact (proj2 (float_le_not_nan _ _ Hle)). }
  split; [exact Hsome|].
  intros segs. destruct (currentSegment segs nan) as [seg|] eqn:Hseg;
    [|reflexivity].
  destruct (Hsome segs nan seg Hseg) as [_ Hnan]. discriminate Hnan.
Qed.

(** ** More on binary64 numbers *)

Local Open Scope float_scope.

Lemma float_le_refl (a : float) : is_nan a = false -> (a <=? a) = true.
Proof.
  intros Ha. destruct (a <=? a) eqn:Hle; [reflexivity|].
  pose proof (float_not_le_lt a a Ha Ha Hle) as Hlt.
  rewrite (float_lt_le a a Hlt) in Hle. discriminate Hle.
Qed.

Lemma Math_max_bounds (a b : float) :
  is_nan a = false -> is_nan b = false ->
  is_nan (Js.Math_max a b) = false
  /\ (a <=? Js.Math_max a b) = true
  /\ (b <=? Js.Math_max a b) = true.
Proof.
  intros Ha Hb. unfold Js.Math_max. rewrite Ha, Hb. cbn [orb].
  destruct (a <? b) eqn:Hab.
  { split; [exact Hb|]. split; [apply float_lt_le, Hab|apply float_le_refl, Hb]. }
  destruct (b <? a) eqn:Hba.
  { split; [exact Ha|]. split; [apply float_le_refl, Ha|apply float_lt_le, Hba]. }
  assert (Hle : (a <=? b) = true).
  { destruct (a <=? b) eqn:Hle; [reflexivity|].
    rewrite (float_not_le_lt a b Ha Hb Hle) in Hba. discriminate Hba. }
  assert (Hge : (b <=? a) = true).
  { destruct (b <=? a) eqn:Hge; [reflexivity|].
    rewrite (float_not_le_lt b a Hb Ha Hge) in Hab. discriminate Hab. }
  destruct (get_sign a).
  - split; [exact Hb|]. split; [exact Hle|apply float_le_refl, Hb].
  - split; [exact Ha|]. split; [apply float_le_refl, Ha|exact Hge].
Qed.

Section Rounding.

Local Open Scope Z_scope.

Lemma shr_1_nonneg (mrs : shr_record) :
  0 <= shr_m mrs -> 0 <= shr_m (shr_1 mrs).
Proof.
  destruct mrs as [m r s]. cbn [shr_m]. intros Hm.
  destruct m as [|[p|p|]|p]; cbn; lia.
Qed.

Lemma iter_pos_invariant {A : Type} (f : A -> A) (P : A -> Prop) :
  (forall x, P x -> P (f x)) ->
  forall p x, P x -> P (SpecFloat.iter_pos f p x).
Proof.
  intros Hf. induction p as [p IH|p IH|]; intros x Hx; cbn; auto.
Qed.

Lemma shr_fexp_nonneg (m e : Z) (l : location) :
  0 <= m -> 0 <= shr_m (fst (shr_fexp prec emax m e l)).
Proof.
  intros Hm. unfold shr_fexp, shr.
  assert (H0 : 0 <= shr_m (shr_record_of_loc m l))
    by (destruct l as [|[]]; exact Hm).
  destruct (fexp prec emax (Zdigits2 m + e) - e); cbn [fst]; try exact H0.
  apply (iter_pos_invariant shr_1 (fun mrs => 0 <= shr_m mrs) shr_1_nonneg).
  exact H0.
Qed.

Lemma binary_round_aux_not_nan (sx : bool) (mx ex : Z) (lx : location) :
  0 <= mx -> binary_round_aux prec emax sx mx ex lx <> S754_nan.
Proof.
  intros Hm. unfold binary_round_aux.
  pose proof (shr_fexp_nonneg mx ex lx Hm) as H1.
  destruct (shr_fexp prec emax mx ex lx) as [mrs' e']. cbn [fst] in H1.
  assert (H2 : 0 <= round_nearest_even (shr_m mrs') (loc_of_shr_record mrs')).
  { unfold round_nearest_even.
    destruct (loc_of_shr_record mrs') as [|[]]; try lia.
    destruct (Z.even (shr_m mrs')); lia. }
  pose proof (shr_fexp_nonneg _ e' loc_Exact H2) as H3.
  destruct (shr_fexp prec emax _ e' loc_Exact) as [mrs'' e''].
  cbn [fst] in H3.
  destruct (shr_m mrs''); [discriminate| |lia].
  destruct (e'' <=? emax - prec); discriminate.
Qed.

Lemma SFmul_finite_not_nan (x : spec_float) (s : bool) (m : positive)
  (e : Z) :
  x <> S754_nan -> SFmul prec emax x (S754_finite s m e) <> S754_nan.
Proof.
  intros Hx. destruct x as [sx|sx| |sx mx ex]; try discriminate;
    [congruence|].
  apply binary_round_aux_not_nan. lia.
Qed.

Lemma SFmul_one (x : spec_float) :
  valid_binary x = true -> SFmul prec emax SF_one x = x.
Proof.
  destruct x as [s|s| |s m e]; try reflexivity. intros Hb.
  cbn [valid_binary] in Hb.
  assert (Hcanon : fexp prec emax (Z.pos (digits2_pos m) + e) = e).
  { unfold bounded, canonical_mantissa in Hb.
    apply andb_true_iff in Hb as [Hc _]. apply Z.eqb_eq. exact Hc. }
  assert (Hle : (e <=? emax - prec) = true).
  { unfold bounded in Hb. apply andb_true_iff in Hb as [_ Hb]. exact Hb. }
  unfold SF_one, SFmul, binary_round_aux. cbn [xorb].
  assert (Hshr : shr_fexp prec emax (Z.pos (4503599627370496 * m)) (-52 + e)
                   loc_Exact
                 = ({| shr_m := Z.pos m; shr_r := false; shr_s := false |}, e)).
  { unfold shr_fexp. rewrite digits_shift52.
    replace (Z.pos (digits2_pos m) + 52 + (-52 + e))
      with (Z.pos (digits2_pos m) + e) by lia.
    rewrite Hcanon. replace (e - (-52 + e)) with 52 by lia.
    unfold shr. apply f_equal2; [reflexivity|lia]. }
  rewrite Hshr. cbn [shr_m loc_of_shr_record round_nearest_even].
  rewrite (shr_fexp_canonical m e Hcanon). cbn [shr_m].
  rewrite Hle. reflexivity.
Qed.

End Rounding.

Lemma float_mul_not_nan (d : float) :
  is_nan d = false -> is_nan (d * PIXELS_PER_SECOND) = false.
Proof.
  unfold is_nan. rewrite !FloatAxioms.eqb_spec, mul_spec.
  change (Prim2SF PIXELS_PER_SECOND)
    with (S754_finite false 7036874417766400 (-47)).
  intros Hd. apply negb_false_iff in Hd. apply negb_false_iff.
  destruct (SFeqb (SF64mul (Prim2SF d) _) (SF64mul (Prim2SF d) _)) eqn:Heq;
    [reflexivity|].
  apply SFeqb_refl_nan in Heq. exfalso.
  apply (SFmul_finite_not_nan (Prim2SF d) false 7036874417766400 (-47));
    [|exact Heq].
  intros Hnan. rewrite Hnan in Hd. discriminate Hd.
Qed.

Lemma float_one_mul (d : float) : 1 * d = d.
Proof.
  apply Prim2SF_inj. rewrite mul_spec.
  change (Prim2SF 1) with SF_one.
  apply SFmul_one, Prim2SF_valid.
Qed.

Lemma float_zero_mul (d : float) :
  (0 <? d) = true -> (d <? infinity) = true -> 0 * d = 0.
Proof.
  rewrite !ltb_spec. intros Hpos Hfin.
  apply Prim2SF_inj. rewrite mul_spec.
  change (Prim2SF 0) with (S754_zero false) in *.
  change (Prim2SF infinity) with (S754_infinity false) in Hfin.
  destruct (Prim2SF d) as [s|s| |s m e]; try discriminate Hpos.
  - destruct s; [discriminate Hpos|discriminate Hfin].
  - destruct s; [discriminate Hpos|reflexivity].
Qed.

Lemma float_zero_div_zero (x w : float) :
  (x =? 0) = true -> (w =? 0) = true -> x / w = nan.
Proof.
  rewrite !FloatAxioms.eqb_spec. intros Hx Hw.
  apply Prim2SF_inj. rewrite div_spec.
  change (Prim2SF 0) with (S754_zero false) in *.
  destruct (Prim2SF x) as [[]|[]| |[] mx ex]; try discriminate Hx;
    destruct (Prim2SF w) as [[]|[]| |[] mw ew]; try discriminate Hw;
    reflexivity.
Qed.

Lemma float_nan_mul (d : float) : nan * d = nan.
Proof. apply Prim2SF_inj. rewrite mul_spec. reflexivity. Qed.

(** ** The track and the click *)

(** X14: for every duration that is a number the track is a number, at least
    800 wide and at least [duration * PIXELS_PER_SECOND] wide; for a NaN
    duration its width is NaN. *)
Theorem totalWidth_at_least_800 (duration : float) :
  (is_nan duration = false ->
     is_nan (totalWidth duration) = false
     /\ (800 <=? totalWidth duration) = true
     /\ (duration * PIXELS_PER_SECOND <=? totalWidth duration) = true)
  /\ (is_nan duration = true -> totalWidth duration = nan).
Proof.
  split.
  - intros Hd.
    destruct (Math_max_bounds (duration * PIXELS_PER_SECOND) 800
                (float_mul_not_nan duration Hd) eq_refl) as (Hnan & Ha & Hb).
    unfold totalWidth. auto.
  - intros Hd. rewrite (float_nan_eq duration Hd).
    unfold totalWidth. rewrite float_nan_mul. reflexivity.
Qed.

(** X14 at a track of two seconds: 100 pixels of audio, 800 of track. *)
Lemma totalWidth_at_least_800_witness :
  (800 <=? totalWidth 2) = true /\ totalWidth 2 = 800.
Proof.
  split; [|reflexivity].
  apply (proj1 (totalWidth_at_least_800 2) eq_refl).
Defined.

Lemma clamp_unit_bounds (q : float) :
  is_nan q = false ->
  (0 <=? clamp q 0 1) = true /\ (clamp q 0 1 <=? 1) = true.
Proof.
  intros Hq. unfold clamp.
  destruct (q <=? 0) eqn:H0; [split; reflexivity|].
  destruct (1 <=? q) eqn:H1; [split; reflexivity|].
  split.
  - apply float_lt_le. exact (float_not_le_lt q 0 Hq eq_refl H0).
  - apply float_lt_le. exact (float_not_le_lt 1 q eq_refl Hq H1).
Qed.

(** X15: whatever the click, the fraction applied to the duration lies in
    [0, 1] unless [offset / width] is NaN; a click at or beyond the right
    end ([offset / width >= 1]) seeks to the duration itself, and one at or
    before the left end to 0 on a track of positive finite duration. *)
Theorem click_beyond_the_track {S : Type} (onSeek : float -> S -> S)
  (rect : DOMRect) (duration clientX : float) (s : S) :
  Js.strict_eq duration 0 = false ->
  let q := (clientX - rect_left rect) / rect_width rect in
  (exists fraction,
     handleTimelineClick onSeek (Some rect) duration clientX s
     = onSeek (fraction * duration) s
     /\ (is_nan q = false ->
         (0 <=? fraction) = true /\ (fraction <=? 1) = true))
  /\ ((1 <=? q) = true ->
      handleTimelineClick onSeek (Some rect) duration clientX s
      = onSeek duration s)
  /\ ((q <=? 0) = true ->
      (0 <? duration) = true -> (duration <? infinity) = true ->
      handleTimelineClick onSeek (Some rect) duration clientX s
      = onSeek 0 s).
Proof.
  intros Hnz q.
  assert (Hclick : handleTimelineClick onSeek (Some rect) duration clientX s
                   = onSeek (clamp q 0 1 * duration) s).
  { unfold handleTimelineClick. rewrite Hnz. cbv zeta.
    rewrite clamp_unit. reflexivity. }
  split; [|split].
  - exists (clamp q 0 1). split; [exact Hclick|]. apply clamp_unit_bounds.
  - intros H1. rewrite Hclick. unfold clamp. rewrite H1.
    assert (H0 : (q <=? 0) = false).
    { destruct (q <=? 0) eqn:H0; [|reflexivity].
      pose proof (float_le_trans _ _ _ H1 H0) as H. discriminate H. }
    rewrite H0, float_one_mul. reflexivity.
  - intros H0 Hpos Hfin. rewrite Hclick. unfold clamp. rewrite H0.
    rewrite (float_zero_mul duration Hpos Hfin). reflexivity.
Qed.

(** X15 at a sample click right of a track 800 wide that starts at 100. *)
Lemma click_beyond_the_track_witness :
  handleTimelineClick (fun t log => t :: log) (Some (mkDOMRect 100 800))
    40 1000 [] = [40].
Proof.
  apply (proj1 (proj2 (click_beyond_the_track (fun t log => t :: log)
                         (mkDOMRect 100 800) 40 1000 [] eq_refl))).
  reflexivity.
Defined.

(** X16: on a container of width zero a click at its left edge seeks to NaN:
    the quotient is [0 / 0] and clamping does not remove a NaN. *)
Theorem click_on_collapsed_track {S : Type} (onSeek : float -> S -> S)
  (rect : DOMRect) (duration clientX : float) (s : S) :
  Js.strict_eq duration 0 = false ->
  (rect_width rect =? 0) = true ->
  (clientX - rect_left rect =? 0) = true ->
  handleTimelineClick onSeek (Some rect) duration clientX s = onSeek nan s.
Proof.
  intros Hnz Hw Hx. unfold handleTimelineClick. rewrite Hnz. cbv zeta.
  rewrite (float_zero_div_zero _ _ Hx Hw), clamp_unit.
  change (clamp nan 0 1) with nan. rewrite float_nan_mul. reflexivity.
Qed.

(** X16 at a sample click. *)
Lemma click_on_collapsed_track_witness :
  handleTimelineClick (fun t log => t :: log) (Some (mkDOMRect 100 0))
    40 100 [] = [nan].
Proof.
  apply (click_on_collapsed_track (fun t log => t :: log)
           (mkDOMRect 100 0) 40 100 []); reflexivity.
Defined.

Local Close Scope float_scope.

(** ** Reading the audio file *)

Lemma split_on_free (sep : ascii) (s : string) :
  char_free sep s -> split_on sep s = [s].
Proof.
  induction s as [|c s IH]; simpl; [reflexivity|]. intros [Hc Hs].
  destruct (Ascii.eqb_spec c sep) as [|_]; [congruence|].
  rewrite (IH Hs). reflexivity.
Qed.

Lemma split_on_first (sep : ascii) (header rest : string) :
  char_free sep header ->
  split_on sep (header +:+ String sep rest) = header :: split_on sep rest.
Proof.
  induction header as [|c header IH]; simpl.
  - intros _. rewrite Ascii.eqb_refl. reflexivity.
  - intros [Hc Hh]. destruct (Ascii.eqb_spec c sep) as [|_]; [congruence|].
    rewrite (IH Hh). reflexivity.
Qed.

(** X17: from a data URL, a header without comma followed by a comma and the
    data, [fileToGenerativePart] resolves with the data; with what follows a
    second comma dropped, if there is one; and with [undefined] when the
    text has no comma at all. *)
Theorem fileToGenerativePart_strips_the_header :
  (forall header data,
     char_free "," header -> char_free "," data ->
     fileToGenerativePart (header +:+ String "," data) = Some data)
  /\ (forall header data more,
        char_free "," header -> char_free "," data ->
        fileToGenerativePart
          (header +:+ String "," (data +:+ String "," more)) = Some data)
  /\ (forall text, char_free "," text -> fileToGenerativePart text = None).
Proof.
  unfold fileToGenerativePart. split; [|split].
  - intros header data Hh Hd.
    rewrite (split_on_first _ _ _ Hh), (split_on_free _ _ Hd). reflexivity.
  - intros header data more Hh Hd.
    rewrite (split_on_first _ _ _ Hh), (split_on_first _ _ _ Hd). reflexivity.
  - intros text Ht. rewrite (split_on_free _ _ Ht). reflexivity.
Qed.

(** X17 at a sample data URL. *)
Lemma fileToGenerativePart_strips_the_header_witness :
  fileToGenerativePart "data:audio/mpeg;base64,SUQzBAAAAAAA"
  = Some "SUQzBAAAAAAA".
Proof.
  apply (proj1 fileToGenerativePart_strips_the_header
           "data:audio/mpeg;base64" "SUQzBAAAAAAA");
    simpl; repeat split; discriminate.
Defined.

(** ** Audio uploads in flight *)

Lemma upload_run_app (before after : list UploadEvent) (st : AppState) :
  upload_run (before ++ after) st = upload_run after (upload_run before st).
Proof. apply fold_left_app. Qed.

Lemma settles_resolved (captured : list UploadedImage) (now : nat -> N)
  (rawData : list RawItem) (st : AppState) :
  exists fresh out,
    analyzeAudioAndSegment now (reply_items rawData) = Js.Return fresh
    /\ matchImagesToSegments fresh captured = Js.Return out
    /\ audio_analysis_settles captured
         (analyzeAudioAndSegment now (reply_items rawData)) st
       = setProcessing (mkProcessingState ready "Analysis complete.")
           (setProject (with_segments out) st).
Proof.
  destruct (analyzed_segments_unassigned now rawData) as (fresh & Hf & _ & _).
  destruct (matchImagesToSegments_returns fresh captured)
    as (out & Hout & _ & _).
  exists fresh, out. split; [exact Hf|]. split; [exact Hout|].
  unfold audio_analysis_settles. rewrite Hf. cbn [Js.bind].
  rewrite Hout. reflexivity.
Qed.

Lemma upload_step_keeps_file (st : AppState) (ev : UploadEvent) :
  is_begins ev = false ->
  audioFile (project (upload_step st ev)) = audioFile (project st)
  /\ audioUrl (project (upload_step st ev)) = audioUrl (project st).
Proof.
  destruct ev as [file url|d|captured now rawData|captured];
    [discriminate| | |]; intros _; cbn [upload_step].
  - split; reflexivity.
  - destruct (settles_resolved captured now rawData st)
      as (fresh & out & _ & _ & ->). split; reflexivity.
  - split; reflexivity.
Qed.

Lemma upload_step_keeps_duration (st : AppState) (ev : UploadEvent) :
  is_metadata ev = false ->
  duration (project (upload_step st ev)) = duration (project st).
Proof.
  destruct ev as [file url|d|captured now rawData|captured];
    [|discriminate| |]; intros _; cbn [upload_step].
  - reflexivity.
  - destruct (settles_resolved captured now rawData st)
      as (fresh & out & _ & _ & ->). reflexivity.
  - reflexivity.
Qed.

Lemma upload_step_keeps_segments (st : AppState) (ev : UploadEvent) :
  is_begins ev = false -> is_resolves ev = false ->
  segments (project (upload_step st ev)) = segments (project st).
Proof.
  destruct ev as [file url|d|captured now rawData|captured];
    [discriminate| |discriminate|]; intros _ _; reflexivity.
Qed.

Lemma upload_run_keeps {A : Type} (field : AppState -> A)
  (writes : UploadEvent -> bool) (events : list UploadEvent) :
  (forall st ev, writes ev = false -> field (upload_step st ev) = field st) ->
  Forall (fun ev => writes ev = false) events ->
  forall st, field (upload_run events st) = field st.
Proof.
  intros Hstep Hall. induction Hall as [|ev events Hev _ IH]; intros st.
  - reflexivity.
  - cbn [upload_run fold_left]. fold (upload_run events (upload_step st ev)).
    rewrite IH. exact (Hstep st ev Hev).
Qed.

(** X18: with any number of audio uploads in flight, each part of the
    project is what the last event that writes it has written, whichever
    upload that event belongs to: the file and its URL come from the upload
    that began last, the duration from the metadata event that fired last,
    and the segment list from the analysis that resolved last, or is empty
    if an upload began after it.  A rejection changes the status only.  So
    the project can hold the second upload's file with the first upload's
    duration or segments. *)
Theorem uploads_in_flight_last_write_wins :
  (forall before after file url st,
     Forall (fun ev => is_begins ev = false) after ->
     let final := upload_run (before ++ upload_begins file url :: after) st in
     audioFile (project final) = Some file
     /\ audioUrl (project final) = Some url)
  /\ (forall before after d st,
        Forall (fun ev => is_metadata ev = false) after ->
        duration (project (upload_run (before ++ upload_metadata d :: after)
                             st)) = d)
  /\ (forall before after captured now rawData st,
        Forall (fun ev => is_begins ev = false) after ->
        Forall (fun ev => is_resolves ev = false) after ->
        exists fresh out,
          analyzeAudioAndSegment now (reply_items rawData) = Js.Return fresh
          /\ matchImagesToSegments fresh captured = Js.Return out
          /\ segments (project
               (upload_run (before ++ upload_resolves captured now rawData
                                      :: after) st)) = out)
  /\ (forall before after file url st,
        Forall (fun ev => is_begins ev = false) after ->
        Forall (fun ev => is_resolves ev = false) after ->
        segments (project (upload_run (before ++ upload_begins file url
                                                 :: after) st)) = [])
  /\ (forall before captured st,
        let earlier := upload_run before st in
        let final := upload_run (before ++ [upload_rejects captured]) st in
        status (processing final) = error
        /\ project final = project earlier
        /\ images final = images earlier).
Proof.
  assert (Hsplit : forall before ev after st,
            upload_run (before ++ ev :: after) st
            = upload_run after (upload_step (upload_run before st) ev)).
  { intros before ev after st. rewrite upload_run_app. reflexivity. }
  assert (Hboth : forall after,
            Forall (fun ev => is_begins ev = false) after ->
            Forall (fun ev => is_resolves ev = false) after ->
            forall st, segments (project (upload_run after st))
                       = segments (project st)).
  { intros after Hb Hr. induction after as [|ev after IH]; intros st.
    - reflexivity.
    - apply Forall_cons in Hb as [Hb1 Hb], Hr as [Hr1 Hr].
      cbn [upload_run fold_left]. fold (upload_run after (upload_step st ev)).
      rewrite (IH Hb Hr). exact (upload_step_keeps_segments st ev Hb1 Hr1). }
  split; [|split; [|split; [|split]]].
  - intros before after file url st Hafter final. subst final.
    rewrite Hsplit. split.
    + rewrite (upload_run_keeps (fun s => audioFile (project s)) is_begins);
        [reflexivity| |exact Hafter].
      intros s ev Hev. exact (proj1 (upload_step_keeps_file s ev Hev)).
    + rewrite (upload_run_keeps (fun s => audioUrl (project s)) is_begins);
        [reflexivity| |exact Hafter].
      intros s ev Hev. exact (proj2 (upload_step_keeps_file s ev Hev)).
  - intros before after d st Hafter. rewrite Hsplit.
    rewrite (upload_run_keeps (fun s => duration (project s)) is_metadata);
      [reflexivity| |exact Hafter].
    intros s ev Hev. exact (upload_step_keeps_duration s ev Hev).
  - intros before after captured now rawData st Hb Hr.
    destruct (settles_resolved captured now rawData (upload_run before st))
      as (fresh & out & Hf & Hout & Hsettle).
    exists fresh, out. split; [exact Hf|]. split; [exact Hout|].
    rewrite Hsplit, (Hboth after Hb Hr). cbn [upload_step].
    rewrite Hsettle. reflexivity.
  - intros before after file url st Hb Hr.
    rewrite Hsplit, (Hboth after Hb Hr). reflexivity.
  - intros before captured st earlier final. subst earlier final.
    rewrite Hsplit. cbn. repeat split.
Qed.

(** X18 at the sample data: the first upload begins, the second begins, the
    second's metadata loads, then the first's: the project holds the second
    file with the first file's duration. *)
Lemma uploads_in_flight_last_write_wins_witness :
  let final :=
    upload_run [upload_begins first_mp3 "blob:first";
                upload_begins second_mp3 "blob:second";
                upload_metadata 40%float; upload_metadata 30%float]
      initial_state in
  audioFile (project final) = Some second_mp3
  /\ duration (project final) = 30%float.
Proof.
  split.
  - apply (proj1 uploads_in_flight_last_write_wins
             [upload_begins first_mp3 "blob:first"]
             [upload_metadata 40%float; upload_metadata 30%float]
             second_mp3 "blob:second" initial_state).
    repeat constructor.
  - apply (proj1 (proj2 uploads_in_flight_last_write_wins)
             [upload_begins first_mp3 "blob:first";
              upload_begins second_mp3 "blob:second";
              upload_metadata 40%float] [] 30%float initial_state).
    constructor.
Defined.

(** ** The preview and the timeline *)

Lemma find_none_false {A : Type} (l : list A) :
  List.find (fun _ => false) l = None.
Proof. induction l; simpl; auto. Qed.

(** X19: the image in the preview is the image in the active segment's
    block of the timeline, unless the segment's image id is the empty
    string, which the preview reads as no image and the timeline looks up. *)
Theorem preview_shows_the_block_image (st : AppState) (seg : Segment) :
  currentSegment (segments (project st)) (currentTime st) = Some seg ->
  assignedImageId seg <> Some "" ->
  currentDisplayImage st = assignedImg (images st) seg.
Proof.
  intros Hseg Hne. unfold currentDisplayImage, assignedImg. rewrite Hseg.
  destruct (assignedImageId seg) as [w|] eqn:Hw; simpl.
  - destruct (String.eqb_spec w ""); [congruence|reflexivity].
  - symmetry. apply find_none_false.
Qed.

(** X19 at the sample data: at 7 seconds the second segment is active and
    holds ["harbour"], the second image of the gallery, which both places
    show. *)
Lemma preview_shows_the_block_image_witness :
  assignedImg [stored "sunrise"; stored "harbour"]
    (narration 1 6 12 "b" (Some "harbour")) = Some (stored "harbour")
  /\ currentDisplayImage
       (mkAppState
          (mkVideoProject None None 18%float
             [narration 0 0 6 "a" (Some "sunrise");
              narration 1 6 12 "b" (Some "harbour")])
          [stored "sunrise"; stored "harbour"]
          (mkProcessingState ready "") false 7%float)
     = assignedImg [stored "sunrise"; stored "harbour"]
         (narration 1 6 12 "b" (Some "harbour")).
Proof.
  split; [reflexivity|].
  apply (preview_shows_the_block_image
           (mkAppState
              (mkVideoProject None None 18%float
                 [narration 0 0 6 "a" (Some "sunrise");
                  narration 1 6 12 "b" (Some "harbour")])
              [stored "sunrise"; stored "harbour"]
              (mkProcessingState ready "") false 7%float)
           (narration 1 6 12 "b" (Some "harbour"))).
  - reflexivity.
  - discriminate.
Defined.
